(** * swole: program expansion and weight arithmetic

    A shallow embedding of [swole/main.py]: the frozen data classes
    ([WorkingSet], [Session], [MicroCycle], [MesoCycle], [Program]), the
    generators that expand a parsed YAML document into them, the weight
    and rounding arithmetic, and the plain presentation of a program.

    Modelling conventions.
    - A parsed YAML document is a [value]: Python's dynamically typed
      scalars, lists and dicts.  Dicts are finite maps with string keys.
    - Python floats are idealised as exact rationals ([Q]); [a // b] on
      floats is the floor of the exact quotient.
    - An exception is an [exn]; code that can raise returns a [result].
    - A generator is the trace it produces when it is driven to its end:
      the items yielded and the exception, if any, that ended it.  What a
      procedure prints is recorded the same way, line by line. *)

From Stdlib Require Import ZArith QArith Qround Qabs String Ascii List Lia Lqa.
From Stdlib Require Import DecimalString.
From stdpp Require Import base option list gmap strings fin_maps.

Local Set Warnings "-register-all".
Local Open Scope Z_scope.

(** ** Python values *)

Inductive Numeric : Type :=
| NInt (z : Z)
| NFloat (q : Q).

Inductive value : Type :=
| VNone
| VBool (b : bool)
| VInt (z : Z)
| VFloat (q : Q)
| VStr (s : string)
| VSeq (l : list value)
| VMap (m : gmap string value).

Inductive exn : Type :=
| KeyError (key : string)
| TypeError
| ValueError
| ContractNotRespected
| Unsupported.

Inductive result (A : Type) : Type :=
| Ok (a : A)
| Raise (e : exn).
Arguments Ok {A} a.
Arguments Raise {A} e.

#[global] Instance result_ret : MRet result := λ A a, Ok a.
#[global] Instance result_bind : MBind result := λ A B k r,
  match r with
  | Ok a => k a
  | Raise e => Raise e
  end.

Definition is_zero (q : Q) : bool := Qeq_bool q 0.

(** [float(n)] for a number. *)
Definition float (n : Numeric) : Q :=
  match n with
  | NInt z => inject_Z z
  | NFloat q => q
  end.

(** Truth value of an optional number: [None] and zero are falsy. *)
Definition truthy_num (n : option Numeric) : bool :=
  match n with
  | None => false
  | Some n => negb (is_zero (float n))
  end.

(** Truth value of an arbitrary object. *)
Definition truthy (v : value) : bool :=
  match v with
  | VNone => false
  | VBool b => b
  | VInt z => negb (z =? 0)
  | VFloat q => negb (is_zero q)
  | VStr s => negb (String.eqb s EmptyString)
  | VSeq l => negb (Nat.eqb (length l) 0)
  | VMap m => negb (Nat.eqb (size m) 0)
  end.

(** The right operand of [float * x] and the argument of
    [format(x, '.1f')]: ints, bools and floats are numbers. *)
Definition as_real (v : value) : option Q :=
  match v with
  | VBool b => Some (inject_Z (Z.b2z b))
  | VInt z => Some (inject_Z z)
  | VFloat q => Some q
  | _ => None
  end.

(** ** Rounding *)

Definition floordiv (a b : Q) : Q := inject_Z (Qfloor (a / b)).

Definition mround (value : Q) (rounding : option Numeric) : Q :=
  let rounding :=
    match rounding with
    | Some r => if negb (truthy_num (Some r)) then 5%Q else float r
    | None => 5%Q
    end in
  (floordiv value rounding * rounding)%Q.

(** ** Rendering *)

(** [str(n)] for an int. *)
Definition str_int (z : Z) : string := NilZero.string_of_int (Z.to_int z).

(** Nearest integer, ties to the even one. *)
Definition round_half_even (q : Q) : Z :=
  let f := Qfloor q in
  match ((q - inject_Z f) ?= 1 # 2)%Q with
  | Lt => f
  | Gt => f + 1
  | Eq => if Z.even f then f else f + 1
  end.

(** [format(x, '.1f')] for a real number: sign, integer part, a point
    and one digit; the magnitude is rounded to the nearest tenth. *)
Definition fixed1 (q : Q) : string :=
  let t := round_half_even (Qabs q * 10) in
  ((if Qlt_le_dec q 0 then "-" else EmptyString) ++
   str_int (t / 10) ++ "." ++ str_int (t mod 10))%string.

Definition format_1f (v : value) : result string :=
  match v with
  | VBool _ | VInt _ | VFloat _ =>
      match as_real v with
      | Some q => Ok (fixed1 q)
      | None => Raise TypeError
      end
  | VStr _ => Raise ValueError
  | VNone | VSeq _ | VMap _ => Raise TypeError
  end.

(** [format(x, '')], that is [str(x)].  The text Python gives a float or
    a container is not modelled. *)
Definition py_str (v : value) : result string :=
  match v with
  | VNone => Ok "None"%string
  | VBool b => Ok (if b then "True" else "False")%string
  | VInt z => Ok (str_int z)
  | VStr s => Ok s
  | VFloat _ | VSeq _ | VMap _ => Raise Unsupported
  end.

(** ** Data classes *)

Record WorkingSet : Type := mkWorkingSet {
  percent : value;
  reps : value;
  amrap : value;
}.

Definition calculate_weight (self : WorkingSet) (tm rounding : option Numeric)
  : result value :=
  if truthy_num tm then
    match tm, as_real (percent self) with
    | Some t, Some p => Ok (VFloat (mround (float t * p) rounding))
    | _, _ => Raise TypeError
    end
  else Ok (percent self).

Definition stringify (self : WorkingSet) (tm rounding : option Numeric)
  : result string :=
  weight ← calculate_weight self tm rounding;
  reps ← (if truthy (amrap self)
           then s ← py_str (reps self); Ok (VStr (s ++ "+"))
           else Ok (reps self));
  w ← format_1f weight;
  r ← py_str reps;
  Ok (w ++ " x " ++ r)%string.

Record Session : Type := mkSession {
  session_name : value;
  sets : list WorkingSet;
}.

Record MicroCycle : Type := mkMicroCycle {
  micro_name : value;
  sessions : list Session;
}.

Record MesoCycle : Type := mkMesoCycle {
  meso_name : value;
  micros : list MicroCycle;
  tm_inc : value;
}.

Record Program : Type := mkProgram {
  program_name : value;
  mesos : list MesoCycle;
}.

(** [float(x)] for a stored field.  Parsing a string is not modelled. *)
Definition py_float (v : value) : result Q :=
  match v with
  | VBool _ | VInt _ | VFloat _ =>
      match as_real v with
      | Some q => Ok q
      | None => Raise TypeError
      end
  | VStr _ => Raise Unsupported
  | VNone | VSeq _ | VMap _ => Raise TypeError
  end.

Definition effective_tm (self : MesoCycle) (tm : option Numeric)
  : result (option Q) :=
  if truthy_num tm then
    match tm with
    | Some t => inc ← py_float (tm_inc self); Ok (Some (float t + inc)%Q)
    | None => Raise TypeError
    end
  else Ok None.

(** ** Dicts, contracts and generators *)

(** [d[k]] *)
Definition getitem (d : gmap string value) (k : string) : result value :=
  match d !! k with
  | Some v => Ok v
  | None => Raise (KeyError k)
  end.

(** [d.get(k, dflt)] *)
Definition get (d : gmap string value) (k : string) (dflt : value) : value :=
  default dflt (d !! k).

(** The contract [map] with [str] keys and any values; keys are strings
    by construction. *)
Definition check_map (v : value) : result (gmap string value) :=
  match v with
  | VMap m => Ok m
  | _ => Raise ContractNotRespected
  end.

(** The contract [program_data]: a sequence of such maps.  A string is a
    sequence of strings, so only the empty one passes. *)
Definition check_program_data (v : value)
  : result (list (gmap string value)) :=
  match v with
  | VSeq l => mapM check_map l
  | VStr s => if String.eqb s EmptyString then Ok [] else Raise ContractNotRespected
  | _ => Raise ContractNotRespected
  end.

(** What a generator does when it is driven to its end. *)
Record generator (A : Type) : Type := mkGenerator {
  yielded : list A;
  raised : option exn;
}.
Arguments mkGenerator {A} yielded raised.
Arguments yielded {A} g.
Arguments raised {A} g.

Definition gen_return {A} : generator A := mkGenerator [] None.
Definition gen_raise {A} (e : exn) : generator A := mkGenerator [] (Some e).
Definition gen_yield {A} (a : A) : generator A := mkGenerator [a] None.

Definition gen_then {A} (g1 g2 : generator A) : generator A :=
  match raised g1 with
  | Some _ => g1
  | None => mkGenerator (yielded g1 ++ yielded g2) (raised g2)
  end.

(** A statement that may raise, followed by the rest of the body. *)
Definition gen_try {A B} (r : result A) (k : A → generator B) : generator B :=
  match r with
  | Ok a => k a
  | Raise e => gen_raise e
  end.

(** [for x in l: body] *)
Definition gen_for {A B} (l : list A) (body : A → generator B) : generator B :=
  foldr (λ x rest, gen_then (body x) rest) gen_return l.

(** [[x for x in g]] *)
Definition collect {A} (g : generator A) : result (list A) :=
  match raised g with
  | None => Ok (yielded g)
  | Some e => Raise e
  end.

(** [range(n)], as the list it iterates over. *)
Definition range (n : value) : result (list nat) :=
  match n with
  | VInt z => Ok (seq 0 (Z.to_nat z))
  | VBool b => Ok (seq 0 (if b then 1 else 0))
  | _ => Raise TypeError
  end.

(** ** Generators of the program tree *)

Definition generate_workingsets (workingsets : value)
  : result (generator WorkingSet) :=
  data ← check_program_data workingsets;
  Ok (gen_for data (λ ws,
    gen_try (let amrap := get ws "amrap" (VBool false) in
             percent ← getitem ws "percent";
             reps ← getitem ws "reps";
             Ok (mkWorkingSet percent reps amrap)) (λ workingset,
    gen_try (range (get ws "sets" (VInt 1))) (λ r,
    gen_for r (λ _, gen_yield workingset))))).

Definition generate_sessions (sessions : value)
  : result (generator Session) :=
  data ← check_program_data sessions;
  Ok (gen_for data (λ session,
    gen_try (sets ← getitem session "sets";
             g ← generate_workingsets sets;
             collect g) (λ workingsets,
    gen_try (getitem session "name") (λ name,
    gen_yield (mkSession name workingsets))))).

Definition generate_micros (micros : value)
  : result (generator MicroCycle) :=
  data ← check_program_data micros;
  Ok (gen_for data (λ micro,
    gen_try (sessions ← getitem micro "sessions";
             g ← generate_sessions sessions;
             collect g) (λ sessions,
    gen_try (getitem micro "name") (λ name,
    gen_yield (mkMicroCycle name sessions))))).

Definition generate_mesos (mesos : value)
  : result (generator MesoCycle) :=
  data ← check_program_data mesos;
  Ok (gen_for data (λ meso,
    gen_try (micros ← getitem meso "micros";
             g ← generate_micros micros;
             collect g) (λ micros,
    let options := filter (λ kv, kv.1 = "tm_inc"%string) meso in
    gen_try (getitem meso "name") (λ name,
    gen_yield (mkMesoCycle name micros (get options "tm_inc" (VInt 0))))))).

(** The contract [str|program_data] *)
Definition is_str_or_program_data (v : value) : bool :=
  match v, check_program_data v with
  | VStr _, _ => true
  | _, Ok _ => true
  | _, Raise _ => false
  end.

(** The contract [map(str: str|program_data)] *)
Definition check_program (v : value) : result (gmap string value) :=
  match v with
  | VMap m =>
      if forallb (λ kv, is_str_or_program_data kv.2) (map_to_list m)
      then Ok m else Raise ContractNotRespected
  | _ => Raise ContractNotRespected
  end.

(** [load_program], from the document [yaml.safe_load] returned. *)
Definition load_program (document : value) : result Program :=
  program ← check_program document;
  mesos ← (mesos ← getitem program "mesos";
            g ← generate_mesos mesos;
            collect g);
  name ← getitem program "name";
  Ok (mkProgram name mesos).

(** Building documents. *)
Definition dict (l : list (string * value)) : value := VMap (list_to_map l).

(** ** Shapes of raw descriptions *)

(** The maps of a sequence of maps. *)
Definition maps_of (v : value) : list (gmap string value) :=
  match v with
  | VSeq l => omap (λ x, match x with VMap m => Some m | _ => None end) l
  | _ => []
  end.

Definition children (m : gmap string value) (k : string)
  : list (gmap string value) :=
  from_option maps_of [] (m !! k).

Definition sum_Z (l : list Z) : Z := foldr Z.add 0 l.
Definition sum_nat (l : list nat) : nat := foldr Nat.add 0%nat l.

(** The repeat count a raw set entry declares: its ['sets'], or 1. *)
Definition repeat_count (ws : gmap string value) : Z :=
  match get ws "sets" (VInt 1) with
  | VInt n => n
  | _ => 0
  end.

(** The raw set entries of a description, in document order. *)
Definition session_entries (session : gmap string value)
  : list (gmap string value) :=
  children session "sets".

Definition micro_entries (micro : gmap string value)
  : list (gmap string value) :=
  session ← children micro "sessions"; session_entries session.

Definition meso_entries (meso : gmap string value)
  : list (gmap string value) :=
  micro ← children meso "micros"; micro_entries micro.

Definition raw_entries (document : value) : list (gmap string value) :=
  match document with
  | VMap program => meso ← children program "mesos"; meso_entries meso
  | _ => []
  end.

(** The sum of the repeat counts of all raw set entries of a document. *)
Definition declared_sets (document : value) : Z :=
  sum_Z (repeat_count <$> raw_entries document).

(** The working sets of a program, in order. *)
Definition micro_sets (micro : MicroCycle) : list WorkingSet :=
  session ← sessions micro; sets session.

Definition meso_sets (meso : MesoCycle) : list WorkingSet :=
  micro ← micros meso; micro_sets micro.

Definition program_sets (p : Program) : list WorkingSet :=
  meso ← mesos p; meso_sets meso.

Definition count_workingsets (p : Program) : nat := length (program_sets p).

(** A value that is a sequence of maps, each satisfying [P]. *)
Definition seq_of (P : gmap string value → Prop) (v : value) : Prop :=
  ∃ l, v = VSeq (VMap <$> l) ∧ Forall P l.

(** Well-formed raw descriptions: the required keys are present, every
    level is a sequence of maps and a repeat count, when given, is an
    integer that is not negative. *)
Definition wf_set (ws : gmap string value) : Prop :=
  is_Some (ws !! "percent") ∧ is_Some (ws !! "reps") ∧
  (ws !! "sets" = None ∨ ∃ n, ws !! "sets" = Some (VInt n) ∧ 0 ≤ n).

Definition wf_level (child : string) (P : gmap string value → Prop)
    (m : gmap string value) : Prop :=
  is_Some (m !! "name") ∧ ∃ v, m !! child = Some v ∧ seq_of P v.

Definition wf_session := wf_level "sets" wf_set.
Definition wf_micro := wf_level "sessions" wf_session.
Definition wf_meso := wf_level "micros" wf_micro.

Definition wf_program (document : value) : Prop :=
  ∃ program, document = VMap program ∧
    wf_level "mesos" wf_meso program ∧
    map_Forall (λ _ v, is_str_or_program_data v = true) program.

(** A value that is a sequence with a map satisfying [P] among its items. *)
Definition seq_with (P : gmap string value → Prop) (v : value) : Prop :=
  ∃ l, v = VSeq l ∧ Exists (λ x, ∃ m, x = VMap m ∧ P m) l.

(** Raw descriptions in which a required field is missing at some level. *)
Definition set_lacks (ws : gmap string value) : Prop :=
  ws !! "percent" = None ∨ ws !! "reps" = None.

Definition level_lacks (child : string) (P : gmap string value → Prop)
    (m : gmap string value) : Prop :=
  m !! "name" = None ∨ m !! child = None ∨
  ∃ v, m !! child = Some v ∧ seq_with P v.

Definition session_lacks := level_lacks "sets" set_lacks.
Definition micro_lacks := level_lacks "sessions" session_lacks.
Definition meso_lacks := level_lacks "micros" micro_lacks.

Definition program_lacks (document : value) : Prop :=
  ∃ program, document = VMap program ∧ level_lacks "mesos" meso_lacks program.

(** The keys the generators and the loader look up. *)
Definition documented : list string :=
  ["name"; "mesos"; "micros"; "sessions"; "sets"; "percent"; "reps";
   "amrap"; "tm_inc"]%string.

(** Two raw descriptions that carry the same documented fields: at each
    level the maps agree on every documented key, the key that holds the
    next level apart, whose sequences are related item by item. *)
Definition same_seq (R : relation (gmap string value)) : relation value :=
  λ v v', ∃ l l', v = VSeq (VMap <$> l) ∧ v' = VSeq (VMap <$> l') ∧ Forall2 R l l'.

Definition same_set : relation (gmap string value) :=
  λ m m', ∀ k, k ∈ documented → m !! k = m' !! k.

Definition same_level (child : string) (R : relation (gmap string value))
  : relation (gmap string value) :=
  λ m m', (∀ k, k ∈ documented → k ≠ child → m !! k = m' !! k) ∧
          option_Forall2 (same_seq R) (m !! child) (m' !! child).

Definition same_session := same_level "sets" same_set.
Definition same_micro := same_level "sessions" same_session.
Definition same_meso := same_level "micros" same_micro.

(** ** Generators over a sequence *)

(** A generator function that treats the items of its argument one after
    the other: on a concatenation it does what it does on the first part,
    then what it does on the second. *)
Definition splits {B} (f : value → result (generator B)) : Prop :=
  ∀ l1 l2,
    f (VSeq (l1 ++ l2))
    = match f (VSeq l1), f (VSeq l2) with
      | Ok g1, Ok g2 => Ok (gen_then g1 g2)
      | Ok _, Raise e => Raise e
      | Raise e, _ => Raise e
      end.

(** ** Sample data *)

Definition ws_half : WorkingSet :=
  mkWorkingSet (VFloat 0.5) (VInt 10) (VBool false).

(** The set of the scenario: half the training max for ten or more. *)
Definition ws_amrap : WorkingSet :=
  mkWorkingSet (VFloat 0.5) (VInt 10) (VBool true).

Definition meso5 : MesoCycle := mkMesoCycle (VStr "m1") [] (VInt 5).

Definition entry_3x : gmap string value :=
  list_to_map [("percent", VFloat 0.7); ("reps", VInt 5); ("sets", VInt 3)]%string.
Definition entry_1x : gmap string value :=
  list_to_map [("percent", VFloat 0.8); ("reps", VInt 3); ("amrap", VBool true)]%string.
Definition entry_neg : gmap string value :=
  list_to_map [("percent", VFloat 0.9); ("reps", VInt 1); ("sets", VInt (-2))]%string.

Definition entry_no_reps : gmap string value :=
  list_to_map [("percent", VFloat 0.8)]%string.
Definition entry_3x_noted : gmap string value :=
  list_to_map [("percent", VFloat 0.7); ("reps", VInt 5); ("sets", VInt 3);
               ("rpe", VInt 8)]%string.

(** One mesocycle of one week of two days. *)
Definition demo_mesos (day1 day2 : list (gmap string value)) : value :=
  VSeq [dict [("name", VStr "base"); ("tm_inc", VInt 5);
    ("micros", VSeq [dict [("name", VStr "week 1");
      ("sessions", VSeq [
         dict [("name", VStr "day 1"); ("sets", VSeq (VMap <$> day1))];
         dict [("name", VStr "day 2"); ("sets", VSeq (VMap <$> day2))]])]])]]%string.

Definition demo_with (day1 day2 : list (gmap string value)) : value :=
  dict [("name", VStr "demo"); ("mesos", demo_mesos day1 day2)]%string.

Definition demo : value := demo_with [entry_3x; entry_1x] [entry_1x].

(** The mesocycles of [demo], with a key of no meaning to the loader in
    a map of each level. *)
Definition demo_mesos_noted : value :=
  VSeq [dict [("name", VStr "base"); ("tm_inc", VInt 5); ("goal", VStr "volume");
    ("micros", VSeq [dict [("name", VStr "week 1"); ("deload", VBool false);
      ("sessions", VSeq [
         dict [("name", VStr "day 1"); ("warmup", VInt 10);
               ("sets", VSeq [VMap entry_3x_noted; VMap entry_1x])];
         dict [("name", VStr "day 2"); ("sets", VSeq [VMap entry_1x])]])]])]]%string.

(** [demo] with the [reps] of one set entry missing: the second entry of
    day 1, or the only entry of day 2. *)
Definition demo_lacking_day1 : value :=
  demo_with [entry_3x; entry_no_reps] [entry_1x].
Definition demo_lacking_day2 : value :=
  demo_with [entry_3x; entry_1x] [entry_no_reps].

(** ** Presentation *)

(** [len(x)]; a character of a [string] stands for one code point. *)
Definition py_len (v : value) : result nat :=
  match v with
  | VStr s => Ok (String.length s)
  | VSeq l => Ok (length l)
  | VMap m => Ok (size m)
  | VNone | VBool _ | VInt _ | VFloat _ => Raise TypeError
  end.

(** [c * n] for a string [c] of one character. *)
Fixpoint str_repeat (c : ascii) (n : nat) : string :=
  match n with
  | O => EmptyString
  | S n => String c (str_repeat c n)
  end.

(** [sep.join(l)]: every item has to be a string. *)
Fixpoint str_join (sep : string) (l : list value) : result string :=
  match l with
  | [] => Ok EmptyString
  | [VStr s] => Ok s
  | VStr s :: l' => rest ← str_join sep l'; Ok (s ++ sep ++ rest)%string
  | _ :: _ => Raise TypeError
  end.

(** [s.upper()] on ASCII text.  What it does to other characters is not
    modelled. *)
Definition upper_char (c : ascii) : result ascii :=
  let n := nat_of_ascii c in
  if (128 <=? n)%nat then Raise Unsupported
  else if ((97 <=? n) && (n <=? 122))%nat then Ok (ascii_of_nat (n - 32))
  else Ok c.

Fixpoint upper (s : string) : result string :=
  match s with
  | EmptyString => Ok EmptyString
  | String c s' => c' ← upper_char c; rest ← upper s'; Ok (String c' rest)
  end.

(** [str(x)] for a float of integral value below 1e16 in magnitude, such
    as ["105.0"].  The text of other floats is not modelled. *)
Definition str_float (q : Q) : result string :=
  let z := Qfloor q in
  if Qeq_bool q (inject_Z z) && (Z.abs z <? 10 ^ 16)
  then Ok (str_int z ++ ".0")%string
  else Raise Unsupported.

(** [format(etm, '')] for the result of [effective_tm]. *)
Definition str_etm (etm : option Q) : result string :=
  match etm with
  | Some q => str_float q
  | None => Ok "None"%string
  end.

(** [print(a, b, ...)] writes its arguments with a space between them.
    What a run prints is the lines printed, in order, and the exception,
    if any, that ended it. *)
Definition print (args : list string) : generator string :=
  gen_yield (String.concat " " args).

(** The body of the loop of [Program.present], for one session. *)
Definition present_session (rounding tm : option Numeric)
    (meso : MesoCycle) (micro : MicroCycle) (session : Session)
  : generator string :=
  gen_try (s ← str_join "." [meso_name meso; micro_name micro;
                             session_name session];
           upper s) (λ flattened_name,
  let banner := str_repeat "-" (Nat.min 10 (String.length flattened_name)) in
  gen_try (effective_tm meso tm) (λ etm,
  gen_then
    (if truthy_num tm
     then gen_try (str_etm etm) (λ t,
            print [banner; flattened_name; ("[TM: " ++ t ++ "]")%string; banner])
     else print [banner; flattened_name; banner])
    (gen_for (sets session) (λ ws,
       gen_try (etm ← effective_tm meso tm;
                stringify ws (NFloat <$> etm) rounding) (λ line,
       print [line]))))).

Definition present (self : Program) (rounding tm : option Numeric)
  : generator string :=
  gen_try (py_len (program_name self)) (λ n,
  let header := str_repeat "=" (Nat.max 20 n) in
  gen_then
    (gen_try (py_str (program_name self)) (λ name,
       print [header; name; header]))
    (gen_for (mesos self) (λ m,
     gen_for (micros m) (λ u,
     gen_for (sessions u) (λ s,
       present_session rounding tm m u s))))).









(** ** What a description loads to *)

(** The working sets a raw set entry stands for. *)
Definition expands (ws : gmap string value) (l : list WorkingSet) : Prop :=
  ∃ p r, ws !! "percent" = Some p ∧ ws !! "reps" = Some r ∧
         l = repeat (mkWorkingSet p r (get ws "amrap" (VBool false)))
               (Z.to_nat (repeat_count ws)).

Definition session_matches (m : gmap string value) (s : Session) : Prop :=
  m !! "name" = Some (session_name s) ∧
  ∃ parts, Forall2 expands (children m "sets") parts ∧ sets s = concat parts.

Definition micro_matches (m : gmap string value) (u : MicroCycle) : Prop :=
  m !! "name" = Some (micro_name u) ∧
  Forall2 session_matches (children m "sessions") (sessions u).

Definition meso_matches (m : gmap string value) (y : MesoCycle) : Prop :=
  m !! "name" = Some (meso_name y) ∧
  tm_inc y = get m "tm_inc" (VInt 0) ∧
  Forall2 micro_matches (children m "micros") (micros y).

Definition program_matches (document : value) (p : Program) : Prop :=
  ∃ program, document = VMap program ∧
    program !! "name" = Some (program_name p) ∧
    Forall2 meso_matches (children program "mesos") (mesos p).

(** ** The first missing field *)

(** Descriptions whose first defect, in the order the loader goes through
    them, is a missing field [key].  At each level the children come first,
    one after the other, then the name; in a set entry [percent] comes
    before [reps]. *)
Definition set_fails (key : string) (ws : gmap string value) : Prop :=
  ws !! "percent" = None ∧ key = "percent"%string ∨
  is_Some (ws !! "percent") ∧ ws !! "reps" = None ∧ key = "reps"%string.

Definition level_fails (child : string) (P : gmap string value → Prop)
    (D : string → gmap string value → Prop)
    (key : string) (m : gmap string value) : Prop :=
  m !! child = None ∧ key = child ∨
  (∃ l1 x l2, m !! child = Some (VSeq (VMap <$> (l1 ++ x :: l2))) ∧
              Forall P l1 ∧ D key x) ∨
  (∃ v, m !! child = Some v ∧ seq_of P v ∧
        m !! "name" = None ∧ key = "name"%string).

Definition session_fails := level_fails "sets" wf_set set_fails.
Definition micro_fails := level_fails "sessions" wf_session session_fails.
Definition meso_fails := level_fails "micros" wf_micro micro_fails.
Definition program_fails := level_fails "mesos" wf_meso meso_fails.

(** ** More sample data *)

Definition entry_float_count : gmap string value :=
  list_to_map [("percent", VFloat 0.7); ("reps", VInt 5); ("sets", VFloat 3)]%string.

Definition demo_map : gmap string value :=
  list_to_map [("name", VStr "demo");
               ("mesos", demo_mesos [entry_3x; entry_1x] [entry_1x])]%string.

(** What [demo] loads to. *)
Definition demo_loaded : Program :=
  let w7 := mkWorkingSet (VFloat 0.7) (VInt 5) (VBool false) in
  let w8 := mkWorkingSet (VFloat 0.8) (VInt 3) (VBool true) in
  mkProgram (VStr "demo")
    [mkMesoCycle (VStr "base")
       [mkMicroCycle (VStr "week 1")
          [mkSession (VStr "day 1") [w7; w7; w7; w8];
           mkSession (VStr "day 2") [w8]]]
       (VInt 5)].

(** * Properties *)

(** ** Weight arithmetic *)

Section arithmetic.
Local Open Scope Q_scope.

Lemma is_zero_true q : is_zero q = true ↔ q == 0.
Proof. apply Qeq_bool_iff. Qed.

Lemma is_zero_false q : is_zero q = false ↔ ¬ q == 0.
Proof.
  rewrite <- is_zero_true. destruct (is_zero q); split; done.
Qed.

Lemma truthy_num_Some t : truthy_num (Some t) = true ↔ ¬ float t == 0.
Proof.
  simpl. rewrite <- is_zero_false. by destruct (is_zero (float t)).
Qed.

Lemma truthy_num_zero t : float t == 0 → truthy_num (Some t) = false.
Proof. intros H. simpl. apply is_zero_true in H. by rewrite H. Qed.

Lemma mround_default value : mround value None = floordiv value 5 * 5.
Proof. reflexivity. Qed.

Lemma mround_zero value r :
  float r == 0 → mround value (Some r) = floordiv value 5 * 5.
Proof. intros H. unfold mround. by rewrite (truthy_num_zero _ H). Qed.

Lemma mround_unit value r :
  ¬ float r == 0 → mround value (Some r) = floordiv value (float r) * float r.
Proof.
  intros H. unfold mround. apply truthy_num_Some in H. by rewrite H.
Qed.

Lemma floordiv_le a b : 0 < b → floordiv a b * b <= a.
Proof.
  intros Hb. unfold floordiv.
  assert (Ha : a == a / b * b) by (field; intros E; rewrite E in Hb; by apply Qlt_irrefl in Hb).
  rewrite Ha at 2. apply Qmult_le_compat_r; [apply Qfloor_le | by apply Qlt_le_weak].
Qed.

Lemma floordiv_gt a b : 0 < b → a - b < floordiv a b * b.
Proof.
  intros Hb. unfold floordiv.
  assert (Hne : ¬ b == 0) by (intros E; rewrite E in Hb; by apply Qlt_irrefl in Hb).
  assert (Ha : a - b == (a / b - 1) * b) by (field; done).
  rewrite Ha. apply Qmult_lt_compat_r; [done |].
  pose proof (Qlt_floor (a / b)) as Hf.
  rewrite inject_Z_plus in Hf. simpl (inject_Z 1) in Hf.
  apply Qplus_lt_l with (z := 1). by ring_simplify.
Qed.
(** Rendering with one decimal place. *)
Lemma round_half_even_near x : Qabs (inject_Z (round_half_even x) - x) <= 1 # 2.
Proof.
  unfold round_half_even.
  pose proof (Qfloor_le x) as Hlo. pose proof (Qlt_floor x) as Hhi.
  rewrite inject_Z_plus in Hhi. change (inject_Z 1) with 1 in Hhi.
  set (f := Qfloor x) in *.
  apply Qabs_Qle_condition.
  destruct (Qcompare_spec (x - inject_Z f) (1 # 2)) as [E|L|G].
  - destruct (Z.even f); rewrite ?inject_Z_plus; change (inject_Z 1) with 1;
      split; lra.
  - split; lra.
  - rewrite inject_Z_plus. change (inject_Z 1) with 1. split; lra.
Qed.

Lemma round_half_even_nonneg x : 0 <= x → (0 ≤ round_half_even x)%Z.
Proof.
  intros Hx. unfold round_half_even.
  assert (Hf : (0 ≤ Qfloor x)%Z).
  { change 0%Z with (Qfloor 0). by apply Qfloor_resp_le. }
  destruct (_ ?= _); [destruct (Z.even _) | |]; lia.
Qed.

Lemma str_int_digit d : (0 ≤ d < 10)%Z → String.length (str_int d) = 1%nat.
Proof.
  intros H.
  assert (E : (d = 0 ∨ d = 1 ∨ d = 2 ∨ d = 3 ∨ d = 4 ∨ d = 5 ∨ d = 6 ∨
               d = 7 ∨ d = 8 ∨ d = 9)%Z) by lia.
  repeat (destruct E as [-> | E]; [reflexivity |]). by subst.
Qed.

(** [fixed1] writes an integer part, a point and one digit, and the number
    so written is within half a tenth of the magnitude rendered. *)
Lemma fixed1_digits q :
  ∃ i d : Z,
    fixed1 q = ((if Qlt_le_dec q 0 then "-" else EmptyString) ++
                str_int i ++ "." ++ str_int d)%string ∧
    (0 ≤ i)%Z ∧ (0 ≤ d < 10)%Z ∧ String.length (str_int d) = 1%nat ∧
    Qabs (Qabs q - (inject_Z i + inject_Z d / 10)) <= 1 # 20.
Proof.
  set (t := round_half_even (Qabs q * 10)).
  exists (t / 10)%Z, (t mod 10)%Z.
  assert (Ht : (0 ≤ t)%Z).
  { apply round_half_even_nonneg. pose proof (Qabs_nonneg q). lra. }
  assert (Hd : (0 ≤ t mod 10 < 10)%Z) by (apply Z.mod_pos_bound; lia).
  split; [reflexivity |]. split; [apply Z.div_pos; lia |].
  split; [done |]. split; [by apply str_int_digit |].
  pose proof (round_half_even_near (Qabs q * 10)) as Hn. fold t in Hn.
  assert (E : inject_Z t == inject_Z (t / 10) * 10 + inject_Z (t mod 10)).
  { rewrite (Z.div_mod t 10) at 1 by lia.
    rewrite inject_Z_plus, inject_Z_mult. change (inject_Z 10) with 10. ring. }
  apply Qabs_Qle_condition in Hn as [Hn1 Hn2].
  apply Qabs_Qle_condition.
  generalize dependent (inject_Z t). generalize (inject_Z (t / 10)).
  generalize (inject_Z (t mod 10)). generalize (Qabs q).
  intros x b a c Hn1 Hn2 E.
  assert (Eb : b / 10 == b * (1 # 10)) by reflexivity.
  generalize dependent (b / 10). intros y Eb. split; lra.
Qed.
End arithmetic.

Section weights.
Local Open Scope Q_scope.

Lemma calculate_weight_absent self rounding :
  calculate_weight self None rounding = Ok (percent self).
Proof. reflexivity. Qed.

Lemma calculate_weight_falsy self t rounding :
  float t == 0 → calculate_weight self (Some t) rounding = Ok (percent self).
Proof. intros H. unfold calculate_weight. by rewrite (truthy_num_zero _ H). Qed.

Lemma calculate_weight_truthy self t p rounding :
  ¬ float t == 0 → as_real (percent self) = Some p →
  calculate_weight self (Some t) rounding
  = Ok (VFloat (mround (float t * p) rounding)).
Proof.
  intros Ht Hp. unfold calculate_weight.
  apply truthy_num_Some in Ht. by rewrite Ht, Hp.
Qed.

Lemma pos_nonzero q : 0 < q → ¬ q == 0.
Proof. intros H E. rewrite E in H. by apply Qlt_irrefl in H. Qed.

(** C1, as amended.  Without a training max the weight is [percent],
    unchanged.  With a training max that is not zero it is
    [floor(tm * percent / unit) * unit], where [unit] is 5.0 when the
    rounding argument is absent or zero and the argument otherwise. *)
Theorem calculate_weight_branches self tm rounding :
  (tm = None → calculate_weight self tm rounding = Ok (percent self)) ∧
  (∀ t p, tm = Some t → ¬ float t == 0 → as_real (percent self) = Some p →
     ∃ unit,
       calculate_weight self tm rounding
       = Ok (VFloat (inject_Z (Qfloor (float t * p / unit)) * unit)) ∧
       (rounding = None → unit = 5) ∧
       (∀ r, rounding = Some r → float r == 0 → unit = 5) ∧
       (∀ r, rounding = Some r → ¬ float r == 0 → unit = float r)).
Proof.
  split.
  - intros ->. apply calculate_weight_absent.
  - intros t p -> Ht Hp. rewrite (calculate_weight_truthy _ _ _ _ Ht Hp).
    destruct rounding as [r|].
    + destruct (Qeq_dec (float r) 0) as [Hr|Hr].
      * exists 5. rewrite (mround_zero _ _ Hr).
        split; [reflexivity |]. split; [done |]. split; [done |].
        intros r' [= <-] Hr'. by destruct Hr'.
      * exists (float r). rewrite (mround_unit _ _ Hr).
        split; [reflexivity |]. split; [done |]. split.
        -- intros r' [= <-] Hr'. by destruct Hr.
        -- by intros r' [= <-] _.
    + exists 5. split; [reflexivity |]. split; [done |]. split; done.
Qed.

Lemma calculate_weight_branches_witness :
  calculate_weight ws_half None (Some (NFloat 10)) = Ok (VFloat 0.5) ∧
  calculate_weight ws_half (Some (NInt 205)) (Some (NFloat 10))
  = Ok (VFloat (inject_Z (Qfloor (inject_Z 205 * 0.5 / 10)) * 10)).
Proof.
  split.
  - exact (proj1 (calculate_weight_branches ws_half None (Some (NFloat 10))) eq_refl).
  - destruct (proj2 (calculate_weight_branches ws_half (Some (NInt 205))
                       (Some (NFloat 10))) (NInt 205) 0.5 eq_refl)
      as (unit & Hw & _ & _ & Hu); [by vm_compute | reflexivity |].
    rewrite (Hu (NFloat 10) eq_refl) in Hw; [exact Hw | by vm_compute].
Defined.

(** C1, refuted as stated: a training max of 0 is a supplied value, yet
    the result is [percent] (here 0.5), which is not
    [floor(0 * 0.5 / unit) * unit] for any unit. *)
Lemma calculate_weight_zero_tm_not_rounded :
  calculate_weight ws_half (Some (NInt 0)) None = Ok (VFloat 0.5) ∧
  ∀ unit, ¬ 0.5 == inject_Z (Qfloor (float (NInt 0) * 0.5 / unit)) * unit.
Proof.
  split; [reflexivity |]. intros unit H.
  assert (E : float (NInt 0) * 0.5 / unit == 0) by (simpl; unfold Qdiv; ring).
  rewrite E in H. simpl in H. ring_simplify in H. by vm_compute in H.
Qed.

(** C5.  For a training max and a unit that are positive, the weight is
    an integer multiple of the unit, at most [tm * percent], and more
    than [tm * percent - unit].  This holds for every numeric percent,
    the positive ones among them. *)
Theorem calculate_weight_bounds self t u p :
  as_real (percent self) = Some p → 0 < float t → 0 < float u →
  ∃ w, calculate_weight self (Some t) (Some u) = Ok (VFloat w) ∧
       (∃ k : Z, w == inject_Z k * float u) ∧
       w <= float t * p ∧
       float t * p - float u < w.
Proof.
  intros Hp Ht Hu.
  rewrite (calculate_weight_truthy _ _ _ _ (pos_nonzero _ Ht) Hp).
  rewrite (mround_unit _ _ (pos_nonzero _ Hu)).
  eexists; split; [reflexivity |]. split; [| split].
  - by exists (Qfloor (float t * p / float u)).
  - by apply floordiv_le.
  - by apply floordiv_gt.
Qed.

Lemma calculate_weight_bounds_witness :
  ∃ w, calculate_weight ws_half (Some (NInt 215)) (Some (NFloat 10))
       = Ok (VFloat w) ∧
       (∃ k : Z, w == inject_Z k * 10) ∧
       w <= inject_Z 215 * 0.5 ∧ inject_Z 215 * 0.5 - 10 < w.
Proof.
  apply (calculate_weight_bounds ws_half (NInt 215) (NFloat 10) 0.5);
    [reflexivity | by vm_compute | by vm_compute].
Defined.

(** C2, as amended.  Without a base training max the result is [None]
    whatever [tm_inc] holds, so a missing max is never read as zero; with
    a base that is not zero it is [tm + tm_inc]. *)
Theorem effective_tm_branches self tm :
  (tm = None → effective_tm self tm = Ok None) ∧
  (∀ t inc, tm = Some t → ¬ float t == 0 → py_float (tm_inc self) = Ok inc →
     effective_tm self tm = Ok (Some (float t + inc))).
Proof.
  split.
  - by intros ->.
  - intros t inc -> Ht Hinc. unfold effective_tm.
    apply truthy_num_Some in Ht. by rewrite Ht, Hinc.
Qed.

Lemma effective_tm_branches_witness :
  effective_tm meso5 None = Ok None ∧
  effective_tm meso5 (Some (NInt 100)) = Ok (Some (inject_Z 100 + inject_Z 5)).
Proof.
  split.
  - exact (proj1 (effective_tm_branches meso5 None) eq_refl).
  - apply (proj2 (effective_tm_branches meso5 (Some (NInt 100))) (NInt 100));
      [reflexivity | by vm_compute | reflexivity].
Defined.

(** C2, refuted as stated: with [tm_inc = 5] a base of 0 does not give
    [0 + 5]; it gives [None], the very result of giving no base. *)
Lemma effective_tm_zero_is_absent :
  effective_tm meso5 (Some (NInt 0)) = Ok None ∧
  effective_tm meso5 (Some (NInt 0)) ≠ Ok (Some (float (NInt 0) + 5)) ∧
  effective_tm meso5 (Some (NInt 0)) = effective_tm meso5 None.
Proof. repeat split; done. Qed.

(** C8.  A training max equal to 0 behaves as no training max: the
    weight is [percent] for every rounding unit and the effective
    training max is [None] for every [tm_inc]. *)
Theorem zero_tm_is_absent t (Ht : float t == 0) :
  (∀ self rounding,
     calculate_weight self (Some t) rounding = Ok (percent self)) ∧
  (∀ self, effective_tm self (Some t) = Ok None).
Proof.
  split.
  - intros. by apply calculate_weight_falsy.
  - intros. unfold effective_tm. by rewrite (truthy_num_zero _ Ht).
Qed.

Lemma zero_tm_is_absent_witness :
  calculate_weight ws_half (Some (NFloat 0)) (Some (NInt 10)) = Ok (VFloat 0.5) ∧
  effective_tm meso5 (Some (NFloat 0)) = Ok None.
Proof.
  assert (H0 : float (NFloat 0) == 0) by reflexivity.
  split.
  - exact (proj1 (zero_tm_is_absent (NFloat 0) H0) ws_half (Some (NInt 10))).
  - exact (proj2 (zero_tm_is_absent (NFloat 0) H0) meso5).
Defined.
Lemma format_1f_real w q : as_real w = Some q → format_1f w = Ok (fixed1 q).
Proof. destruct w; simpl; try done; by intros [= <-]. Qed.

(** C7.  [stringify] writes the weight with one decimal place (an integer
    part, a point and one digit, within half a tenth of the weight), then
    [" x "], then the rep count, followed by ["+"] exactly when [amrap] is
    true.  The set of [amrap], [percent = 0.5] and [reps = 10] with a
    training max of 215 and a unit of 10.0 reads ["100.0 x 10+"]. *)
Theorem stringify_format :
  (∀ self tm rounding w q n,
     calculate_weight self tm rounding = Ok w → as_real w = Some q →
     reps self = VInt n →
     ∃ i d : Z,
       stringify self tm rounding
       = Ok (((if Qlt_le_dec q 0 then "-" else EmptyString) ++
              str_int i ++ "." ++ str_int d) ++ " x " ++
             (if truthy (amrap self) then str_int n ++ "+" else str_int n))%string ∧
       (0 ≤ i)%Z ∧ (0 ≤ d < 10)%Z ∧ String.length (str_int d) = 1%nat ∧
       Qabs (Qabs q - (inject_Z i + inject_Z d / 10)) <= 1 # 20) ∧
  stringify ws_amrap (Some (NInt 215)) (Some (NFloat 10))
  = Ok "100.0 x 10+"%string.
Proof.
  split; [| by vm_compute].
  intros self tm rounding w q n Hw Hq Hreps.
  destruct (fixed1_digits q) as (i & d & Hf & Hi & Hd & Hlen & Hnear).
  exists i, d. split; [| done].
  unfold stringify. rewrite Hw, Hreps. unfold mbind, result_bind.
  rewrite <- Hf.
  destruct (truthy (amrap self)); simpl; by rewrite (format_1f_real _ _ Hq).
Qed.

Lemma stringify_format_witness :
  ∃ i d : Z,
    stringify ws_amrap (Some (NInt 215)) (Some (NFloat 10))
    = Ok ((str_int i ++ "." ++ str_int d) ++ " x 10+")%string ∧
    (0 ≤ i)%Z ∧ (0 ≤ d < 10)%Z ∧ String.length (str_int d) = 1%nat ∧
    Qabs (Qabs (mround (float (NInt 215) * 0.5) (Some (NFloat 10)))
          - (inject_Z i + inject_Z d / 10)) <= 1 # 20.
Proof.
  exact (proj1 stringify_format ws_amrap (Some (NInt 215)) (Some (NFloat 10))
           _ _ 10%Z eq_refl eq_refl eq_refl).
Defined.
End weights.

(** ** Generators *)

Section generators.
Context {A B : Type}.
Implicit Types (g : generator B) (body : A → generator B).

Lemma gen_then_return_l g : gen_then gen_return g = g.
Proof. by destruct g. Qed.

Lemma gen_then_return_r g : gen_then g gen_return = g.
Proof.
  destruct g as [ys [e|]]; unfold gen_then; simpl; [done |].
  by rewrite app_nil_r.
Qed.

Lemma gen_then_assoc g1 g2 g3 :
  gen_then (gen_then g1 g2) g3 = gen_then g1 (gen_then g2 g3).
Proof.
  destruct g1 as [y1 [e1|]], g2 as [y2 [e2|]]; unfold gen_then; simpl;
    try done.
  by rewrite app_assoc.
Qed.

Lemma gen_for_cons x l body :
  gen_for (x :: l) body = gen_then (body x) (gen_for l body).
Proof. reflexivity. Qed.

Lemma gen_for_app l1 l2 body :
  gen_for (l1 ++ l2) body = gen_then (gen_for l1 body) (gen_for l2 body).
Proof.
  induction l1 as [|x l1 IH].
  - simpl. by rewrite gen_then_return_l.
  - change ((x :: l1) ++ l2) with (x :: (l1 ++ l2)).
    rewrite !gen_for_cons, IH. by rewrite gen_then_assoc.
Qed.

Lemma gen_for_yield (l : list A) (b : B) :
  gen_for l (λ _, gen_yield b) = mkGenerator (repeat b (length l)) None.
Proof.
  induction l as [|x l IH]; [done |].
  rewrite gen_for_cons, IH. reflexivity.
Qed.

(** A loop whose body fails at some item ends with an exception. *)
Lemma gen_for_raises l body :
  Exists (λ x, is_Some (raised (body x))) l →
  is_Some (raised (gen_for l body)).
Proof.
  induction l as [|x l IH]; intros H; [by apply Exists_nil in H |].
  rewrite gen_for_cons. unfold gen_then.
  destruct (raised (body x)) as [e|] eqn:E; [by rewrite E |].
  apply Exists_cons in H as [H|H]; [rewrite E in H; by destruct H | ].
  by apply IH.
Qed.


Lemma gen_for_ext {A'} (R : A → A' → Prop) l l' body (body' : A' → generator B) :
  Forall2 R l l' → (∀ x y, R x y → body x = body' y) →
  gen_for l body = gen_for l' body'.
Proof.
  intros Hl Hb. induction Hl as [|x y l l' Hxy _ IH]; [done |].
  by rewrite !gen_for_cons, IH, (Hb x y Hxy).
Qed.
End generators.

Lemma collect_Ok {A} (ys : list A) : collect (mkGenerator ys None) = Ok ys.
Proof. reflexivity. Qed.

Lemma collect_raises {A} (g : generator A) :
  is_Some (raised g) → ∃ e, collect g = Raise e.
Proof. intros [e He]. exists e. unfold collect. by rewrite He. Qed.

(** ** Contracts *)

Lemma mapM_check_map_cons x l :
  mapM check_map (x :: l)
  = match check_map x, mapM check_map l with
    | Ok m, Ok data => Ok (m :: data)
    | Ok _, Raise e => Raise e
    | Raise e, _ => Raise e
    end.
Proof.
  change (mapM check_map (x :: l))
    with (m ← check_map x; data ← mapM check_map l; mret (m :: data)).
  destruct (check_map x); [|done]. by destruct (mapM check_map l).
Qed.

Lemma mapM_check_map_fmap (l : list (gmap string value)) :
  mapM check_map (VMap <$> l) = Ok l.
Proof.
  induction l as [|m l IH]; [done |].
  rewrite fmap_cons, mapM_check_map_cons, IH. reflexivity.
Qed.

Lemma mapM_check_map_Ok l data :
  mapM check_map l = Ok data → l = VMap <$> data.
Proof.
  revert data. induction l as [|x l IH]; intros data H.
  - by injection H as <-.
  - rewrite mapM_check_map_cons in H. destruct x; try done.
    simpl in H. destruct (mapM check_map l) as [data'|] eqn:E; [|done].
    injection H as <-. by rewrite (IH data').
Qed.

Lemma mapM_check_map_app l1 l2 :
  mapM check_map (l1 ++ l2)
  = match mapM check_map l1, mapM check_map l2 with
    | Ok d1, Ok d2 => Ok (d1 ++ d2)
    | Ok _, Raise e => Raise e
    | Raise e, _ => Raise e
    end.
Proof.
  induction l1 as [|x l1 IH].
  - simpl. by destruct (mapM check_map l2).
  - change ((x :: l1) ++ l2) with (x :: (l1 ++ l2)).
    rewrite !mapM_check_map_cons, IH.
    destruct (check_map x) as [m|e]; [|done].
    destruct (mapM check_map l1); [|done].
    by destruct (mapM check_map l2).
Qed.

Lemma check_program_data_seq (l : list (gmap string value)) :
  check_program_data (VSeq (VMap <$> l)) = Ok l.
Proof. apply mapM_check_map_fmap. Qed.

Lemma check_program_data_Ok v data :
  check_program_data v = Ok data →
  v = VSeq (VMap <$> data) ∨ (v = VStr EmptyString ∧ data = []).
Proof.
  destruct v; simpl; try done.
  - destruct (String.eqb_spec s EmptyString); [|done]. intros [= <-]. right. by subst.
  - intros H. left. by rewrite (mapM_check_map_Ok _ _ H).
Qed.

(** ** Expansion of raw set entries *)

Lemma generate_workingsets_app l1 l2 :
  generate_workingsets (VSeq (l1 ++ l2))
  = match generate_workingsets (VSeq l1), generate_workingsets (VSeq l2) with
    | Ok g1, Ok g2 => Ok (gen_then g1 g2)
    | Ok _, Raise e => Raise e
    | Raise e, _ => Raise e
    end.
Proof.
  unfold generate_workingsets, check_program_data.
  rewrite mapM_check_map_app.
  destruct (mapM check_map l1) as [d1|]; [|done].
  destruct (mapM check_map l2) as [d2|]; [|done].
  simpl. by rewrite gen_for_app.
Qed.

Lemma generate_workingsets_entry ws p r rl :
  ws !! "percent" = Some p → ws !! "reps" = Some r →
  range (get ws "sets" (VInt 1)) = Ok rl →
  generate_workingsets (VSeq [VMap ws])
  = Ok (mkGenerator
          (repeat (mkWorkingSet p r (get ws "amrap" (VBool false))) (length rl))
          None).
Proof.
  intros Hp Hr Hrange. unfold generate_workingsets.
  change [VMap ws] with (VMap <$> [ws]).
  rewrite check_program_data_seq. unfold mbind at 1, result_bind at 1.
  rewrite gen_for_cons. unfold getitem. rewrite Hp, Hr.
  unfold mbind, result_bind, gen_try. rewrite Hrange, gen_for_yield.
  change (gen_for [] _) with (@gen_return WorkingSet).
  by rewrite gen_then_return_r.
Qed.

Lemma generate_workingsets_around ws l1 l2 g :
  generate_workingsets (VSeq [VMap ws]) = Ok g →
  generate_workingsets (VSeq (l1 ++ VMap ws :: l2))
  = match generate_workingsets (VSeq l1), generate_workingsets (VSeq l2) with
    | Ok g1, Ok g2 => Ok (gen_then g1 (gen_then g g2))
    | Ok _, Raise e => Raise e
    | Raise e, _ => Raise e
    end.
Proof.
  intros Hg. rewrite generate_workingsets_app.
  change (VMap ws :: l2) with ([VMap ws] ++ l2).
  rewrite (generate_workingsets_app [VMap ws] l2), Hg.
  destruct (generate_workingsets (VSeq l1)); [|done].
  by destruct (generate_workingsets (VSeq l2)).
Qed.

(** C3.  A raw set entry with [percent] and [reps] yields the same
    [WorkingSet] [count] times in a row, after what the entries before it
    yield and before what the entries after it yield; [count] is the
    entry's ['sets'] (so none for 0), or 1 when the key is absent; the
    [amrap] field is [False] when the key is absent. *)
Theorem workingset_repeat ws p r count l1 l2 g1 g2 :
  ws !! "percent" = Some p → ws !! "reps" = Some r →
  (ws !! "sets" = None ∧ count = 1%nat ∨
   ∃ n, ws !! "sets" = Some (VInt n) ∧ count = Z.to_nat n) →
  generate_workingsets (VSeq l1) = Ok g1 → raised g1 = None →
  generate_workingsets (VSeq l2) = Ok g2 →
  let workingset := mkWorkingSet p r (default (VBool false) (ws !! "amrap")) in
  generate_workingsets (VSeq (l1 ++ VMap ws :: l2))
  = Ok (mkGenerator (yielded g1 ++ repeat workingset count ++ yielded g2)
          (raised g2)) ∧
  (ws !! "amrap" = None → amrap workingset = VBool false).
Proof.
  intros Hp Hr Hsets H1 Hg1 H2 workingset. split.
  - assert (Hrange : range (get ws "sets" (VInt 1)) = Ok (seq 0 count)).
    { unfold get. destruct Hsets as [[-> ->] | (n & -> & ->)]; done. }
    rewrite (generate_workingsets_around ws l1 l2 _
               (generate_workingsets_entry ws p r _ Hp Hr Hrange)).
    rewrite H1, H2, length_seq. unfold gen_then at 1. rewrite Hg1.
    reflexivity.
  - intros H. subst workingset. simpl. by rewrite H.
Qed.

Lemma workingset_repeat_witness :
  let w7 := mkWorkingSet (VFloat 0.7) (VInt 5) (VBool false) in
  let w8 := mkWorkingSet (VFloat 0.8) (VInt 3) (VBool true) in
  generate_workingsets (VSeq [VMap entry_1x; VMap entry_3x; VMap entry_1x])
  = Ok (mkGenerator [w8; w7; w7; w7; w8] None).
Proof.
  apply (workingset_repeat entry_3x (VFloat 0.7) (VInt 5) 3
           [VMap entry_1x] [VMap entry_1x]
           (mkGenerator [mkWorkingSet (VFloat 0.8) (VInt 3) (VBool true)] None)
           (mkGenerator [mkWorkingSet (VFloat 0.8) (VInt 3) (VBool true)] None));
    [reflexivity | reflexivity | right; by exists 3
    | by vm_compute | reflexivity | by vm_compute].
Defined.

(** C9.  A raw set entry whose ['sets'] is a negative integer raises
    nothing and yields nothing: the generator behaves as if the entry
    were not there, and as it does when the count is 0. *)
Theorem negative_repeat_emits_nothing ws p r n l1 l2 :
  ws !! "percent" = Some p → ws !! "reps" = Some r →
  ws !! "sets" = Some (VInt n) → n < 0 →
  generate_workingsets (VSeq [VMap ws]) = Ok gen_return ∧
  generate_workingsets (VSeq (l1 ++ VMap ws :: l2))
  = generate_workingsets (VSeq (l1 ++ l2)) ∧
  generate_workingsets (VSeq (l1 ++ VMap ws :: l2))
  = generate_workingsets (VSeq (l1 ++ VMap (<["sets" := VInt 0]> ws) :: l2)).
Proof.
  intros Hp Hr Hsets Hn.
  assert (Hone : generate_workingsets (VSeq [VMap ws]) = Ok gen_return).
  { rewrite (generate_workingsets_entry ws p r (seq 0 (Z.to_nat n)) Hp Hr).
    - by rewrite Z2Nat.nonpos by lia.
    - unfold get. by rewrite Hsets. }
  assert (Hzero : generate_workingsets (VSeq [VMap (<["sets" := VInt 0]> ws)])
                  = Ok gen_return).
  { rewrite (generate_workingsets_entry _ p r []); [done | | |].
    - by rewrite lookup_insert_ne.
    - by rewrite lookup_insert_ne.
    - unfold get. by rewrite lookup_insert_eq. }
  split; [done |].
  rewrite (generate_workingsets_around _ l1 l2 _ Hone).
  rewrite (generate_workingsets_around _ l1 l2 _ Hzero).
  split; [| done].
  rewrite generate_workingsets_app.
  destruct (generate_workingsets (VSeq l1)); [|done].
  destruct (generate_workingsets (VSeq l2)); [|done].
  by rewrite gen_then_return_l.
Qed.

Lemma negative_repeat_emits_nothing_witness :
  generate_workingsets (VSeq [VMap entry_neg]) = Ok gen_return ∧
  generate_workingsets (VSeq ([VMap entry_1x] ++ VMap entry_neg :: [VMap entry_3x]))
  = generate_workingsets (VSeq ([VMap entry_1x] ++ [VMap entry_3x])).
Proof.
  destruct (negative_repeat_emits_nothing entry_neg (VFloat 0.9) (VInt 1) (-2)
              [VMap entry_1x] [VMap entry_3x]) as (H1 & H2 & _);
    [reflexivity | reflexivity | reflexivity | lia |].
  exact (conj H1 H2).
Defined.

(** ** Generators over a sequence, item by item *)

Ltac splits_by_loop f :=
  intros l1 l2; unfold f, check_program_data;
  rewrite mapM_check_map_app;
  destruct (mapM check_map l1); [|done];
  destruct (mapM check_map l2); [|done];
  simpl; by rewrite gen_for_app.

Lemma generate_workingsets_splits : splits generate_workingsets.
Proof. exact generate_workingsets_app. Qed.

Lemma generate_sessions_splits : splits generate_sessions.
Proof. splits_by_loop generate_sessions. Qed.

Lemma generate_micros_splits : splits generate_micros.
Proof. splits_by_loop generate_micros. Qed.

Lemma generate_mesos_splits : splits generate_mesos.
Proof. splits_by_loop generate_mesos. Qed.

Section item_by_item.
Context {B : Type} (f : value → result (generator B)).
Hypothesis f_splits : splits f.
Hypothesis f_nil : f (VSeq []) = Ok gen_return.

Lemma splits_cons x l :
  f (VSeq (x :: l))
  = match f (VSeq [x]), f (VSeq l) with
    | Ok g1, Ok g2 => Ok (gen_then g1 g2)
    | Ok _, Raise e => Raise e
    | Raise e, _ => Raise e
    end.
Proof. exact (f_splits [x] l). Qed.

(** If the generator fails on some item taken alone, it fails on the
    sequence, at its call or while it runs. *)
Lemma seq_with_raises (P : gmap string value → Prop) l :
  (∀ m g, P m → f (VSeq [VMap m]) = Ok g → is_Some (raised g)) →
  Exists (λ x, ∃ m, x = VMap m ∧ P m) l →
  ∀ g, f (VSeq l) = Ok g → is_Some (raised g).
Proof.
  intros HP. induction l as [|x l IH]; intros Hex g Hg.
  - by apply Exists_nil in Hex.
  - rewrite splits_cons in Hg.
    destruct (f (VSeq [x])) as [g1|] eqn:E1; [|done].
    destruct (f (VSeq l)) as [g2|] eqn:E2; [|done].
    injection Hg as <-. unfold gen_then.
    destruct (raised g1) as [e|] eqn:R1; [by rewrite R1 |].
    apply Exists_cons in Hex as [(m & -> & Hm)|Hex].
    + specialize (HP m g1 Hm E1). rewrite R1 in HP. by destruct HP.
    + simpl. by apply (IH Hex g2).
Qed.

(** Items that give the same generator one by one give the same
    generator in sequence. *)
Lemma seq_same (R : relation (gmap string value)) l l' :
  (∀ m m', R m m' → f (VSeq [VMap m]) = f (VSeq [VMap m'])) →
  Forall2 R l l' →
  f (VSeq (VMap <$> l)) = f (VSeq (VMap <$> l')).
Proof.
  intros HR. induction 1 as [|m m' l l' Hm _ IH]; [done |].
  rewrite !fmap_cons.
  rewrite (splits_cons (VMap m)), (splits_cons (VMap m')), IH.
  by rewrite (HR m m' Hm).
Qed.

(** Items that each yield one value and end, do so in sequence. *)
Lemma seq_yields (P : gmap string value → Prop)
    (declared : gmap string value → Z) (count : B → nat) l :
  (∀ m, P m → ∃ y, f (VSeq [VMap m]) = Ok (gen_yield y) ∧
                   Z.of_nat (count y) = declared m) →
  Forall P l →
  ∃ ys, f (VSeq (VMap <$> l)) = Ok (mkGenerator ys None) ∧
        Z.of_nat (sum_nat (count <$> ys)) = sum_Z (declared <$> l).
Proof.
  intros HP. induction 1 as [|m l Hm _ (ys & IH & Hsum)].
  - by exists [].
  - destruct (HP m Hm) as (y & Hy & Hc). exists (y :: ys).
    rewrite fmap_cons, splits_cons, Hy, IH. split; [done |].
    rewrite !fmap_cons. simpl. lia.
Qed.
End item_by_item.

(** ** Counting *)

Lemma maps_of_fmap (l : list (gmap string value)) :
  maps_of (VSeq (VMap <$> l)) = l.
Proof.
  unfold maps_of. induction l as [|m l IH]; [done |].
  csimpl. by rewrite IH.
Qed.

Lemma children_seq m k (l : list (gmap string value)) :
  m !! k = Some (VSeq (VMap <$> l)) → children m k = l.
Proof. intros H. unfold children. rewrite H. apply maps_of_fmap. Qed.

Lemma sum_Z_app l1 l2 : sum_Z (l1 ++ l2) = sum_Z l1 + sum_Z l2.
Proof. induction l1 as [|x l1 IH]; simpl; [done | rewrite IH; lia]. Qed.

Lemma sum_nat_app l1 l2 : sum_nat (l1 ++ l2) = (sum_nat l1 + sum_nat l2)%nat.
Proof. induction l1 as [|x l1 IH]; simpl; [done | rewrite IH; lia]. Qed.

Lemma sum_Z_bind {A C} (f : A → list C) (g : C → Z) (l : list A) :
  sum_Z (g <$> (x ← l; f x)) = sum_Z ((λ x, sum_Z (g <$> f x)) <$> l).
Proof.
  induction l as [|x l IH]; [done |].
  rewrite bind_cons, fmap_app, sum_Z_app, fmap_cons, IH. reflexivity.
Qed.

Lemma length_bind {A C} (f : A → list C) (l : list A) :
  length (x ← l; f x) = sum_nat ((λ x, length (f x)) <$> l).
Proof.
  induction l as [|x l IH]; [done |].
  rewrite bind_cons, length_app, fmap_cons, IH. reflexivity.
Qed.

Lemma gen_for_singleton {A B} (x : A) (body : A → generator B) :
  gen_for [x] body = body x.
Proof. apply gen_then_return_r. Qed.

Lemma wf_set_range ws :
  wf_set ws →
  ∃ p r, ws !! "percent" = Some p ∧ ws !! "reps" = Some r ∧
         range (get ws "sets" (VInt 1)) = Ok (seq 0 (Z.to_nat (repeat_count ws))) ∧
         0 ≤ repeat_count ws.
Proof.
  intros ([p Hp] & [r Hr] & Hsets). exists p, r. split; [done |]. split; [done |].
  unfold repeat_count, get.
  destruct Hsets as [-> | (n & -> & Hn)]; simpl; split; done || lia.
Qed.

(** The working sets of a well-formed sequence of raw entries. *)
Lemma generate_workingsets_count l :
  Forall wf_set l →
  ∃ ws, generate_workingsets (VSeq (VMap <$> l)) = Ok (mkGenerator ws None) ∧
        Z.of_nat (length ws) = sum_Z (repeat_count <$> l).
Proof.
  induction 1 as [|m l Hm _ (ws & IH & Hlen)]; [by exists [] |].
  destruct (wf_set_range m Hm) as (p & r & Hp & Hr & Hrange & Hpos).
  eexists. rewrite fmap_cons.
  rewrite (splits_cons _ generate_workingsets_splits).
  rewrite (generate_workingsets_entry m p r _ Hp Hr Hrange), IH.
  split; [reflexivity |].
  change (sum_Z (repeat_count <$> m :: l))
    with (repeat_count m + sum_Z (repeat_count <$> l)).
  rewrite <- Hlen. simpl. rewrite length_app, repeat_length, length_seq. lia.
Qed.

(** What each generator does on a sequence of one map. *)
Ltac one_item f :=
  unfold f; match goal with |- context [VSeq [VMap ?m]] =>
    change [VMap m] with (VMap <$> [m]) end;
  rewrite check_program_data_seq; unfold mbind at 1, result_bind at 1;
  by rewrite gen_for_singleton.

Lemma generate_workingsets_one ws :
  generate_workingsets (VSeq [VMap ws])
  = Ok (gen_try (percent ← getitem ws "percent";
                 reps ← getitem ws "reps";
                 Ok (mkWorkingSet percent reps (get ws "amrap" (VBool false))))
          (λ workingset,
           gen_try (range (get ws "sets" (VInt 1)))
             (λ r, gen_for r (λ _, gen_yield workingset)))).
Proof. one_item generate_workingsets. Qed.

Lemma generate_sessions_one session :
  generate_sessions (VSeq [VMap session])
  = Ok (gen_try (sets ← getitem session "sets";
                 g ← generate_workingsets sets;
                 collect g)
          (λ workingsets,
           gen_try (getitem session "name")
             (λ name, gen_yield (mkSession name workingsets)))).
Proof. one_item generate_sessions. Qed.

Lemma generate_micros_one micro :
  generate_micros (VSeq [VMap micro])
  = Ok (gen_try (sessions ← getitem micro "sessions";
                 g ← generate_sessions sessions;
                 collect g)
          (λ sessions,
           gen_try (getitem micro "name")
             (λ name, gen_yield (mkMicroCycle name sessions)))).
Proof. one_item generate_micros. Qed.

Lemma generate_mesos_one meso :
  generate_mesos (VSeq [VMap meso])
  = Ok (gen_try (micros ← getitem meso "micros";
                 g ← generate_micros micros;
                 collect g)
          (λ micros,
           gen_try (getitem meso "name")
             (λ name,
              gen_yield (mkMesoCycle name micros
                (get (filter (λ kv, kv.1 = "tm_inc"%string) meso)
                   "tm_inc" (VInt 0)))))).
Proof. one_item generate_mesos. Qed.

Lemma generate_sessions_item m :
  wf_session m →
  ∃ y, generate_sessions (VSeq [VMap m]) = Ok (gen_yield y) ∧
       Z.of_nat (length (sets y)) = sum_Z (repeat_count <$> session_entries m).
Proof.
  intros ([name Hname] & v & Hv & l & -> & Hl).
  destruct (generate_workingsets_count l Hl) as (ws & Hg & Hlen).
  exists (mkSession name ws). split.
  - rewrite generate_sessions_one. unfold getitem. rewrite Hv, Hname.
    unfold mbind, result_bind. by rewrite Hg.
  - unfold session_entries. by rewrite (children_seq _ _ _ Hv).
Qed.

Lemma generate_micros_item m :
  wf_micro m →
  ∃ y, generate_micros (VSeq [VMap m]) = Ok (gen_yield y) ∧
       Z.of_nat (length (micro_sets y)) = sum_Z (repeat_count <$> micro_entries m).
Proof.
  intros ([name Hname] & v & Hv & l & -> & Hl).
  destruct (seq_yields generate_sessions generate_sessions_splits eq_refl
              wf_session _ (λ y, length (sets y)) l generate_sessions_item Hl)
    as (ys & Hg & Hsum).
  exists (mkMicroCycle name ys). split.
  - rewrite generate_micros_one. unfold getitem. rewrite Hv, Hname.
    unfold mbind, result_bind. by rewrite Hg.
  - unfold micro_sets, micro_entries. simpl sessions.
    by rewrite length_bind, sum_Z_bind, (children_seq _ _ _ Hv).
Qed.

Lemma generate_mesos_item m :
  wf_meso m →
  ∃ y, generate_mesos (VSeq [VMap m]) = Ok (gen_yield y) ∧
       Z.of_nat (length (meso_sets y)) = sum_Z (repeat_count <$> meso_entries m).
Proof.
  intros ([name Hname] & v & Hv & l & -> & Hl).
  destruct (seq_yields generate_micros generate_micros_splits eq_refl
              wf_micro _ (λ y, length (micro_sets y)) l generate_micros_item Hl)
    as (ys & Hg & Hsum).
  eexists (mkMesoCycle name ys _). split.
  - rewrite generate_mesos_one. unfold getitem. rewrite Hv, Hname.
    unfold mbind, result_bind. by rewrite Hg.
  - unfold meso_sets, meso_entries. simpl micros.
    by rewrite length_bind, sum_Z_bind, (children_seq _ _ _ Hv).
Qed.

Lemma check_program_Ok program :
  map_Forall (λ _ v, is_str_or_program_data v = true) program →
  check_program (VMap program) = Ok program.
Proof.
  intros H. unfold check_program.
  assert (Hall : forallb (λ kv, is_str_or_program_data kv.2) (map_to_list program)
                 = true); [| by rewrite Hall].
  apply forallb_forall. intros [k v] Hin.
  apply list_elem_of_In, elem_of_map_to_list in Hin. exact (H k v Hin).
Qed.

(** C6.  Loading a well-formed description gives a program, and the
    number of its working sets, over all mesocycles, microcycles and
    sessions, is the sum of the repeat counts of the raw set entries, an
    entry without ['sets'] counting for 1. *)
Theorem workingset_count_preserved document :
  wf_program document →
  ∃ p, load_program document = Ok p ∧
       Z.of_nat (count_workingsets p) = declared_sets document.
Proof.
  intros (program & -> & ([name Hname] & v & Hv & l & -> & Hl) & Hc).
  destruct (seq_yields generate_mesos generate_mesos_splits eq_refl
              wf_meso _ (λ y, length (meso_sets y)) l generate_mesos_item Hl)
    as (ys & Hg & Hsum).
  exists (mkProgram name ys). split.
  - unfold load_program. rewrite (check_program_Ok _ Hc).
    unfold mbind, result_bind, getitem. rewrite Hv, Hg. simpl. by rewrite Hname.
  - unfold count_workingsets, program_sets, declared_sets, raw_entries.
    simpl mesos.
    by rewrite length_bind, sum_Z_bind, (children_seq _ _ _ Hv).
Qed.

(** ** Missing fields *)

Lemma generate_workingsets_lacks m g :
  set_lacks m → generate_workingsets (VSeq [VMap m]) = Ok g →
  is_Some (raised g).
Proof.
  intros Hm. rewrite generate_workingsets_one. intros [= <-].
  unfold getitem. destruct Hm as [-> | Hr]; [by eexists |].
  destruct (m !! "percent"); [| by eexists]. rewrite Hr. by eexists.
Qed.

Section levels.
Context {A : Type} (F : value → result (generator A)).
Context (child : string) (P : gmap string value → Prop).
Hypothesis F_splits : splits F.
Hypothesis F_item :
  ∀ m g, P m → F (VSeq [VMap m]) = Ok g → is_Some (raised g).

(** The children of a level cannot be collected when the key that holds
    them is missing or when one of them lacks a field. *)
Lemma children_lack m :
  m !! child = None ∨ (∃ v, m !! child = Some v ∧ seq_with P v) →
  ∃ e, (c ← getitem m child; g ← F c; collect g) = Raise e.
Proof.
  unfold getitem. intros [-> | (v & -> & l & -> & Hex)]; [by eexists |].
  unfold mbind, result_bind.
  destruct (F (VSeq l)) as [g|e] eqn:E; [| by eexists].
  apply collect_raises. by apply (seq_with_raises F F_splits P l F_item).
Qed.

Lemma level_lacks_raises {B} (mk : value → list A → B) m :
  level_lacks child P m →
  is_Some (raised
    (gen_try (c ← getitem m child; g ← F c; collect g) (λ cs,
     gen_try (getitem m "name") (λ name, gen_yield (mk name cs))))).
Proof.
  intros [Hname | Hchild].
  - destruct (c ← getitem m child; g ← F c; collect g) as [cs|e];
      [| by eexists].
    unfold getitem. rewrite Hname. by eexists.
  - destruct (children_lack m Hchild) as [e ->]. by eexists.
Qed.
End levels.

Lemma generate_sessions_lacks m g :
  session_lacks m → generate_sessions (VSeq [VMap m]) = Ok g →
  is_Some (raised g).
Proof.
  intros Hm. rewrite generate_sessions_one. intros [= <-].
  by apply (level_lacks_raises generate_workingsets "sets" set_lacks
              generate_workingsets_splits generate_workingsets_lacks).
Qed.

Lemma generate_micros_lacks m g :
  micro_lacks m → generate_micros (VSeq [VMap m]) = Ok g →
  is_Some (raised g).
Proof.
  intros Hm. rewrite generate_micros_one. intros [= <-].
  by apply (level_lacks_raises generate_sessions "sessions" session_lacks
              generate_sessions_splits generate_sessions_lacks).
Qed.

Lemma generate_mesos_lacks m g :
  meso_lacks m → generate_mesos (VSeq [VMap m]) = Ok g →
  is_Some (raised g).
Proof.
  intros Hm. rewrite generate_mesos_one. intros [= <-].
  by apply (level_lacks_raises generate_micros "micros" micro_lacks
              generate_micros_splits generate_micros_lacks
              (λ name micros, mkMesoCycle name micros _)).
Qed.

Lemma check_program_inv m program :
  check_program (VMap m) = Ok program → program = m.
Proof.
  unfold check_program.
  destruct (forallb _ _); [by intros [= <-] | done].
Qed.

(** C4, as amended.  When a required field ([name], [mesos], [micros],
    [sessions], [sets], [percent] or [reps]) is missing at any nesting
    level, loading raises an exception, and so returns no program, partial
    or not. *)
Theorem missing_field_aborts_load document :
  program_lacks document → ∃ e, load_program document = Raise e.
Proof.
  intros (program & -> & [Hname | Hchild]); unfold load_program.
  - destruct (check_program (VMap program)) as [pr|e] eqn:E; [| by eexists].
    apply check_program_inv in E as ->. unfold mbind at 1, result_bind at 1.
    destruct (mesos ← getitem program "mesos"; g ← generate_mesos mesos; collect g)
      as [ms|e]; [| by eexists].
    unfold getitem. rewrite Hname. by eexists.
  - destruct (check_program (VMap program)) as [pr|e] eqn:E; [| by eexists].
    apply check_program_inv in E as ->. unfold mbind at 1, result_bind at 1.
    destruct (children_lack generate_mesos "mesos" meso_lacks
                generate_mesos_splits generate_mesos_lacks program Hchild)
      as [e ->].
    by eexists.
Qed.

(** ** Undocumented keys *)

Ltac documented_key :=
  unfold documented;
  repeat first [apply list_elem_of_here | apply list_elem_of_further].

Lemma generate_workingsets_same m m' :
  same_set m m' →
  generate_workingsets (VSeq [VMap m]) = generate_workingsets (VSeq [VMap m']).
Proof.
  intros H. rewrite !generate_workingsets_one. unfold getitem, get.
  rewrite (H "percent"), (H "reps"), (H "amrap"), (H "sets")
    by documented_key.
  reflexivity.
Qed.

(** The options of a mesocycle are its [tm_inc], when it has one. *)
Lemma options_tm_inc (meso : gmap string value) dflt :
  get (filter (λ kv, kv.1 = "tm_inc"%string) meso) "tm_inc" dflt
  = get meso "tm_inc" dflt.
Proof.
  unfold get. f_equal. apply option_eq. intros v.
  rewrite map_lookup_filter_Some. split; [by intros [? _] | by intros ?].
Qed.

Section same_levels.
Context {A : Type} (F : value → result (generator A)).
Context (child : string) (R : relation (gmap string value)).
Hypothesis F_splits : splits F.
Hypothesis F_item :
  ∀ m m', R m m' → F (VSeq [VMap m]) = F (VSeq [VMap m']).

Lemma children_same m m' :
  same_level child R m m' →
  (c ← getitem m child; g ← F c; collect g)
  = (c ← getitem m' child; g ← F c; collect g).
Proof.
  intros [_ Hc]. unfold getitem.
  destruct Hc as [v v' (l & l' & -> & -> & Hl)|]; [| done].
  unfold mbind, result_bind.
  by rewrite (seq_same F F_splits R l l' F_item Hl).
Qed.

End same_levels.

Lemma name_same child R m m' :
  child ≠ "name"%string → same_level child R m m' →
  getitem m "name" = getitem m' "name".
Proof.
  intros Hne [Hk _]. unfold getitem.
  rewrite (Hk "name"%string); [done | documented_key | done].
Qed.

Lemma generate_sessions_same m m' :
  same_session m m' →
  generate_sessions (VSeq [VMap m]) = generate_sessions (VSeq [VMap m']).
Proof.
  intros H. rewrite !generate_sessions_one.
  rewrite (children_same generate_workingsets "sets" same_set
             generate_workingsets_splits generate_workingsets_same m m' H).
  by rewrite (name_same "sets" same_set m m').
Qed.

Lemma generate_micros_same m m' :
  same_micro m m' →
  generate_micros (VSeq [VMap m]) = generate_micros (VSeq [VMap m']).
Proof.
  intros H. rewrite !generate_micros_one.
  rewrite (children_same generate_sessions "sessions" same_session
             generate_sessions_splits generate_sessions_same m m' H).
  by rewrite (name_same "sessions" same_session m m').
Qed.

Lemma generate_mesos_same m m' :
  same_meso m m' →
  generate_mesos (VSeq [VMap m]) = generate_mesos (VSeq [VMap m']).
Proof.
  intros H. rewrite !generate_mesos_one.
  rewrite (children_same generate_micros "micros" same_micro
             generate_micros_splits generate_micros_same m m' H).
  rewrite (name_same "micros" same_micro m m') by done.
  rewrite !options_tm_inc. unfold get.
  rewrite (proj1 H "tm_inc"%string); [done | documented_key | done].
Qed.

(** C10.  Two sequences of raw mesocycles that agree on the documented
    keys at every level, whatever other keys their maps hold, give the same
    result: the same mesocycles yielded in the same order, and the same
    exception, if any. *)
Theorem undocumented_keys_ignored mesos mesos' :
  same_seq same_meso mesos mesos' →
  generate_mesos mesos = generate_mesos mesos'.
Proof.
  intros (l & l' & -> & -> & Hl).
  exact (seq_same generate_mesos generate_mesos_splits same_meso l l'
           generate_mesos_same Hl).
Qed.

(** ** The sample program *)

Lemma seq_of_nil P : seq_of P (VSeq []).
Proof. by exists []. Qed.

Lemma seq_of_cons P m l :
  P m → seq_of P (VSeq l) → seq_of P (VSeq (VMap m :: l)).
Proof.
  intros Hm (l' & [= ->] & Hl). exists (m :: l'). split; [done |].
  by constructor.
Qed.

Lemma wf_level_intro child P m name v :
  m !! "name" = Some name → m !! child = Some v → seq_of P v →
  wf_level child P m.
Proof. intros Hname Hv HP. split; [by eexists | by exists v]. Qed.

Lemma wf_set_intro ws p r :
  ws !! "percent" = Some p → ws !! "reps" = Some r →
  (ws !! "sets" = None ∨ ∃ n, ws !! "sets" = Some (VInt n) ∧ 0 ≤ n) →
  wf_set ws.
Proof. intros Hp Hr Hs. split; [by eexists |]. split; [by eexists | done]. Qed.

Ltac lookup := reflexivity.

Ltac wf_sets :=
  repeat first
    [ apply seq_of_nil
    | apply seq_of_cons;
      [ eapply wf_set_intro;
        [ lookup | lookup
        | first [ left; lookup
                | right; eexists; split; [lookup | lia] ] ]
      | ] ].

Ltac wf_levels inner :=
  repeat first
    [ apply seq_of_nil
    | apply seq_of_cons;
      [ eapply wf_level_intro; [lookup | lookup | inner] | ] ].

Lemma demo_wf : wf_program demo.
Proof.
  eexists. split; [reflexivity |]. split.
  - eapply wf_level_intro; [lookup | lookup |].
    wf_levels ltac:(wf_levels ltac:(wf_levels ltac:(wf_sets))).
  - repeat (apply map_Forall_insert_2; [reflexivity |]).
    apply map_Forall_empty.
Qed.

Lemma workingset_count_preserved_witness :
  wf_program demo ∧
  ∃ p, load_program demo = Ok p ∧
       Z.of_nat (count_workingsets p) = declared_sets demo.
Proof.
  split; [exact demo_wf | exact (workingset_count_preserved demo demo_wf)].
Defined.

Lemma seq_with_here P m l : P m → seq_with P (VSeq (VMap m :: l)).
Proof.
  intros Hm. eexists. split; [reflexivity |]. apply Exists_cons_hd. by exists m.
Qed.

Lemma seq_with_further P x l : seq_with P (VSeq l) → seq_with P (VSeq (x :: l)).
Proof.
  intros (l' & [= <-] & Hl). eexists. split; [reflexivity |].
  by apply Exists_cons_tl.
Qed.

Lemma level_lacks_below child P m v :
  m !! child = Some v → seq_with P v → level_lacks child P m.
Proof. intros Hv HP. right; right. by exists v. Qed.

Ltac below := eapply level_lacks_below; [lookup |].

Lemma demo_lacking_day1_lacks : program_lacks demo_lacking_day1.
Proof.
  eexists. split; [reflexivity |].
  below. apply seq_with_here. below. apply seq_with_here.
  below. apply seq_with_here.
  below. apply seq_with_further, seq_with_here. by right.
Qed.

Lemma demo_lacking_day2_lacks : program_lacks demo_lacking_day2.
Proof.
  eexists. split; [reflexivity |].
  below. apply seq_with_here. below. apply seq_with_here.
  below. apply seq_with_further, seq_with_here.
  below. apply seq_with_here. by right.
Qed.

Lemma missing_field_aborts_load_witness :
  program_lacks demo_lacking_day1 ∧
  ∃ e, load_program demo_lacking_day1 = Raise e.
Proof.
  split; [exact demo_lacking_day1_lacks |].
  exact (missing_field_aborts_load demo_lacking_day1 demo_lacking_day1_lacks).
Defined.

(** C4, refuted as stated: the exception raised for a missing field is
    the [KeyError] of the failed lookup.  It carries the key and nothing
    of the nesting path: with [reps] missing in day 1 or in day 2 the
    loader raises the very same exception, so nothing computed from the
    exception tells the two places apart. *)
Lemma missing_field_error_has_no_path :
  program_lacks demo_lacking_day1 ∧ program_lacks demo_lacking_day2 ∧
  load_program demo_lacking_day1 = Raise (KeyError "reps") ∧
  load_program demo_lacking_day2 = Raise (KeyError "reps") ∧
  ∀ (T : Type) (locate : exn → T) e1 e2,
    load_program demo_lacking_day1 = Raise e1 →
    load_program demo_lacking_day2 = Raise e2 →
    locate e1 = locate e2.
Proof.
  assert (H1 : load_program demo_lacking_day1 = Raise (KeyError "reps"))
    by (vm_compute; reflexivity).
  assert (H2 : load_program demo_lacking_day2 = Raise (KeyError "reps"))
    by (vm_compute; reflexivity).
  split; [exact demo_lacking_day1_lacks |].
  split; [exact demo_lacking_day2_lacks |].
  split; [exact H1 |]. split; [exact H2 |].
  intros T locate e1 e2. rewrite H1, H2. by intros [= <-] [= <-].
Qed.

Lemma same_seq_nil R : same_seq R (VSeq []) (VSeq []).
Proof. exists [], []. by repeat split. Qed.

Lemma same_seq_cons R m m' l l' :
  R m m' → same_seq R (VSeq l) (VSeq l') →
  same_seq R (VSeq (VMap m :: l)) (VSeq (VMap m' :: l')).
Proof.
  intros Hm (k & k' & [= ->] & [= ->] & Hk). exists (m :: k), (m' :: k').
  split; [done |]. split; [done |]. by constructor.
Qed.

Lemma same_level_intro child R m m' v v' :
  m !! child = Some v → m' !! child = Some v' →
  (∀ k, k ∈ documented → k ≠ child → m !! k = m' !! k) →
  same_seq R v v' → same_level child R m m'.
Proof.
  intros Hv Hv' Hk HR. split; [done |]. rewrite Hv, Hv'. by constructor.
Qed.

Ltac agree :=
  let Hk := fresh in let Hne := fresh in
  intros ? Hk; unfold documented in Hk;
  repeat (apply elem_of_cons in Hk as [-> | Hk]);
  [ .. | by apply elem_of_nil in Hk ];
  try intros Hne; first [reflexivity | by destruct Hne].

Ltac same_levels inner :=
  repeat first
    [ apply same_seq_nil
    | apply same_seq_cons;
      [ eapply same_level_intro; [lookup | lookup | agree | inner] | ] ].

Ltac same_sets :=
  repeat first [ apply same_seq_nil | apply same_seq_cons; [agree |] ].

Lemma demo_mesos_same :
  same_seq same_meso (demo_mesos [entry_3x; entry_1x] [entry_1x])
    demo_mesos_noted.
Proof. same_levels ltac:(same_levels ltac:(same_levels ltac:(same_sets))). Qed.

Lemma undocumented_keys_ignored_witness :
  same_seq same_meso (demo_mesos [entry_3x; entry_1x] [entry_1x])
    demo_mesos_noted ∧
  generate_mesos (demo_mesos [entry_3x; entry_1x] [entry_1x])
  = generate_mesos demo_mesos_noted.
Proof.
  split; [exact demo_mesos_same |].
  exact (undocumented_keys_ignored _ _ demo_mesos_same).
Defined.

(** * Further properties *)

(** ** Rounding *)

Section rounding.
Local Open Scope Q_scope.

(** The unit [mround] works with is never zero. *)
Lemma mround_effective_unit rounding :
  ∃ u, ¬ u == 0 ∧ (∀ value, mround value rounding = floordiv value u * u) ∧
       (rounding = None → u = 5) ∧
       (∀ r, rounding = Some r → float r == 0 → u = 5) ∧
       (∀ r, rounding = Some r → ¬ float r == 0 → u = float r).
Proof.
  destruct rounding as [r|].
  - destruct (Qeq_dec (float r) 0) as [Hr|Hr].
    + exists 5. split; [done |]. split; [intros; by apply mround_zero |].
      split; [done |]. split; [done |]. intros r' [= <-] Hr'. by destruct Hr'.
    + exists (float r). split; [done |]. split; [intros; by apply mround_unit |].
      split; [done |]. split; [| by intros r' [= <-]].
      intros r' [= <-] Hr'. by destruct Hr.
  - exists 5. split; [done |]. split; [done |]. split; [done |]. split; done.
Qed.


Lemma floordiv_mono a b u : 0 < u → a <= b → floordiv a u <= floordiv b u.
Proof.
  intros Hu Hab. unfold floordiv. rewrite <- Zle_Qle. apply Qfloor_resp_le.
  apply Qmult_le_compat_r; [done |]. apply Qlt_le_weak. by apply Qinv_lt_0_compat.
Qed.

Lemma floordiv_anti a b u : u < 0 → a <= b → floordiv b u <= floordiv a u.
Proof.
  intros Hu Hab. unfold floordiv. rewrite <- Zle_Qle. apply Qfloor_resp_le.
  assert (Hne : ¬ u == 0) by (intros E; rewrite E in Hu; by apply Qlt_irrefl in Hu).
  assert (Hi : 0 < - / u).
  { assert (H : 0 < / - u) by (apply Qinv_lt_0_compat; lra).
    assert (E : / - u == - / u) by (field; done). by rewrite E in H. }
  unfold Qdiv.
  assert (H : a * - / u <= b * - / u)
    by (apply Qmult_le_compat_r; [done | by apply Qlt_le_weak]).
  lra.
Qed.

Lemma floordiv_small a u : 0 < u → 0 <= a → a < u → floordiv a u = 0.
Proof.
  intros Hu Ha Hau. unfold floordiv.
  assert (Hne : ¬ u == 0) by (intros E; rewrite E in Hu; by apply Qlt_irrefl in Hu).
  assert (Hi : 0 < / u) by (by apply Qinv_lt_0_compat).
  assert (H0 : 0 <= a / u).
  { unfold Qdiv. apply Qmult_le_0_compat; [done | by apply Qlt_le_weak]. }
  assert (H1 : a / u < 1).
  { assert (E : 1 == u / u) by (field; done). rewrite E. unfold Qdiv.
    by apply Qmult_lt_compat_r. }
  pose proof (Qfloor_le (a / u)) as Hlo. pose proof (Qlt_floor (a / u)) as Hhi.
  assert (Hk : (Qfloor (a / u) = 0)%Z).
  { generalize dependent (a / u). intros x H0 H1 Hlo Hhi.
    assert (Hlt : inject_Z (Qfloor x) < inject_Z 1)
      by (by apply Qle_lt_trans with x).
    assert (Hgt : inject_Z 0 < inject_Z (Qfloor x + 1))
      by (by apply Qle_lt_trans with x).
    rewrite <- Zlt_Qlt in Hlt, Hgt. lia. }
  by rewrite Hk.
Qed.


(** X2.  [mround] keeps the order of the values it rounds, whatever the
    unit, a negative one included. *)
Theorem mround_monotone v1 v2 rounding :
  v1 <= v2 → mround v1 rounding <= mround v2 rounding.
Proof.
  intros Hv. destruct (mround_effective_unit rounding) as (u & Hu & Hm & _).
  rewrite !Hm. destruct (Q_dec u 0) as [[Hneg | Hpos] | E]; [| | done].
  - pose proof (floordiv_anti v1 v2 u Hneg Hv) as H.
    assert (H' : floordiv v2 u * - u <= floordiv v1 u * - u)
      by (apply Qmult_le_compat_r; [done | lra]).
    lra.
  - apply Qmult_le_compat_r; [by apply floordiv_mono | by apply Qlt_le_weak].
Qed.

Lemma mround_monotone_witness :
  mround 103 (Some (NFloat 2.5)) <= mround 107 (Some (NFloat 2.5)).
Proof. apply (mround_monotone 103 107 (Some (NFloat 2.5))). by vm_compute. Defined.

(** X3.  When the rounding argument is absent or zero, [mround] rounds
    down to a multiple of 5: the result is an integer times 5, at most the
    value and less than 5 below it.  It never rounds to the nearest
    multiple when that one is above. *)
Theorem mround_default_rounds_down value rounding :
  (rounding = None ∨ ∃ r, rounding = Some r ∧ float r == 0) →
  (∃ k : Z, mround value rounding = inject_Z k * 5) ∧
  mround value rounding <= value ∧ value - 5 < mround value rounding.
Proof.
  intros H.
  assert (E : mround value rounding = floordiv value 5 * 5).
  { destruct H as [-> | (r & -> & Hr)]; [done | by apply mround_zero]. }
  rewrite E. split; [by eexists |].
  split; [by apply floordiv_le | by apply floordiv_gt].
Qed.

Lemma mround_default_rounds_down_witness :
  (∃ k : Z, mround 104.9 (Some (NInt 0)) = inject_Z k * 5) ∧
  mround 104.9 (Some (NInt 0)) <= 104.9 ∧
  104.9 - 5 < mround 104.9 (Some (NInt 0)).
Proof.
  apply (mround_default_rounds_down 104.9 (Some (NInt 0))).
  right. exists (NInt 0). split; reflexivity.
Defined.



(** X5.  For a positive training max and a positive unit, a product
    [tm * percent] that is not negative and below the unit gives the
    weight 0: a set lighter than one unit is shown with no weight. *)
Theorem calculate_weight_below_unit self t u p :
  as_real (percent self) = Some p → 0 < float t → 0 < float u →
  0 <= float t * p → float t * p < float u →
  ∃ w, calculate_weight self (Some t) (Some u) = Ok (VFloat w) ∧ w == 0.
Proof.
  intros Hp Ht Hu H0 H1.
  rewrite (calculate_weight_truthy _ _ _ _ (pos_nonzero _ Ht) Hp).
  rewrite (mround_unit _ _ (pos_nonzero _ Hu)).
  eexists. split; [reflexivity |].
  rewrite (floordiv_small _ _ Hu H0 H1). ring.
Qed.

Lemma calculate_weight_below_unit_witness :
  ∃ w, calculate_weight ws_half (Some (NInt 15)) (Some (NFloat 10))
       = Ok (VFloat w) ∧ w == 0.
Proof.
  apply (calculate_weight_below_unit ws_half (NInt 15) (NFloat 10) 0.5);
    [reflexivity | by vm_compute | by vm_compute | by vm_compute | by vm_compute].
Defined.
End rounding.

(** ** Rendering a working set *)




(** ** Contracts and lookups of the generators *)

Lemma mapM_check_map_not_map l :
  Exists (λ x, ∀ m, x ≠ VMap m) l →
  mapM check_map l = Raise ContractNotRespected.
Proof.
  induction l as [|x l IH]; intros H; [by apply Exists_nil in H |].
  rewrite mapM_check_map_cons.
  destruct x; try done.
  apply Exists_cons in H as [H | H]; [by destruct (H m) |].
  simpl. by rewrite (IH H).
Qed.

Ltac contract_fails f :=
  unfold f, check_program_data;
  match goal with
  | H : Exists _ _ |- _ => by rewrite (mapM_check_map_not_map _ H)
  end.

(** X7.  The contract of a generator function is checked when the
    function is called, on the whole argument: if any item of the sequence,
    the last one included, is not a map, the call itself raises
    [ContractNotRespected] and no generator is made, so nothing is yielded
    for the items before it.  An argument that is a map, a number, a
    boolean or [None] is refused alike. *)
Theorem contract_checked_at_call :
  (∀ l, Exists (λ x, ∀ m, x ≠ VMap m) l →
     generate_workingsets (VSeq l) = Raise ContractNotRespected ∧
     generate_sessions (VSeq l) = Raise ContractNotRespected ∧
     generate_micros (VSeq l) = Raise ContractNotRespected ∧
     generate_mesos (VSeq l) = Raise ContractNotRespected) ∧
  (∀ v, match v with VSeq _ | VStr _ => False | _ => True end →
     generate_workingsets v = Raise ContractNotRespected ∧
     generate_sessions v = Raise ContractNotRespected ∧
     generate_micros v = Raise ContractNotRespected ∧
     generate_mesos v = Raise ContractNotRespected).
Proof.
  split.
  - intros l H. split; [contract_fails generate_workingsets |].
    split; [contract_fails generate_sessions |].
    split; [contract_fails generate_micros | contract_fails generate_mesos].
  - intros v Hv. by destruct v.
Qed.

Lemma contract_checked_at_call_witness :
  generate_workingsets (VSeq [VMap entry_3x; VMap entry_1x; VInt 5])
  = Raise ContractNotRespected ∧
  generate_sessions (VMap entry_3x) = Raise ContractNotRespected.
Proof.
  split.
  - apply (proj1 contract_checked_at_call [VMap entry_3x; VMap entry_1x; VInt 5]).
    do 2 apply Exists_cons_tl. apply Exists_cons_hd. done.
  - by apply (proj2 contract_checked_at_call (VMap entry_3x)).
Defined.

Lemma generate_workingsets_maps (l : list (gmap string value)) :
  ∃ g, generate_workingsets (VSeq (VMap <$> l)) = Ok g.
Proof.
  unfold generate_workingsets. rewrite check_program_data_seq. by eexists.
Qed.

(** X8.  A raw set entry that lacks [percent], or has it and lacks [reps],
    ends the generator with the [KeyError] of that key ([percent] is looked
    up first), after the working sets of the entries before it have been
    yielded; the entries after it are not looked at. *)
Theorem generate_workingsets_first_defect l1 m l2 key :
  Forall wf_set l1 →
  (m !! "percent" = None ∧ key = "percent"%string ∨
   is_Some (m !! "percent") ∧ m !! "reps" = None ∧ key = "reps"%string) →
  ∃ ws, generate_workingsets (VSeq (VMap <$> l1)) = Ok (mkGenerator ws None) ∧
        generate_workingsets (VSeq (VMap <$> (l1 ++ m :: l2)))
        = Ok (mkGenerator ws (Some (KeyError key))).
Proof.
  intros Hl1 Hm.
  destruct (generate_workingsets_count l1 Hl1) as (ws & H1 & _).
  destruct (generate_workingsets_maps l2) as [g2 H2].
  exists ws. split; [done |].
  assert (Hone : generate_workingsets (VSeq [VMap m]) = Ok (gen_raise (KeyError key))).
  { rewrite generate_workingsets_one. unfold getitem.
    destruct Hm as [[-> ->] | ([p ->] & -> & ->)]; reflexivity. }
  rewrite fmap_app, fmap_cons.
  rewrite (generate_workingsets_around m _ _ _ Hone), H1, H2.
  unfold gen_then. simpl. by rewrite app_nil_r.
Qed.

Lemma generate_workingsets_first_defect_witness :
  ∃ ws, generate_workingsets (VSeq (VMap <$> [entry_3x])) = Ok (mkGenerator ws None) ∧
        generate_workingsets (VSeq (VMap <$> ([entry_3x] ++ entry_no_reps :: [entry_1x])))
        = Ok (mkGenerator ws (Some (KeyError "reps"))).
Proof.
  apply (generate_workingsets_first_defect [entry_3x] entry_no_reps [entry_1x]).
  - constructor; [| constructor].
    eapply wf_set_intro; [reflexivity | reflexivity |].
    right. eexists. split; [reflexivity | lia].
  - right. split; [by eexists |]. split; reflexivity.
Defined.

(** X9.  The repeat count of an entry goes to [range]: a count that is a
    float, a string, [None], a sequence or a map ends the generator with a
    [TypeError], once the entries before it have been yielded; a boolean
    counts as 1 or 0. *)
Theorem repeat_count_goes_to_range m p r :
  m !! "percent" = Some p → m !! "reps" = Some r →
  let workingset := mkWorkingSet p r (get m "amrap" (VBool false)) in
  (∀ v, m !! "sets" = Some v →
     match v with VInt _ | VBool _ => False | _ => True end →
     ∀ l1 l2 ws,
       generate_workingsets (VSeq (VMap <$> l1)) = Ok (mkGenerator ws None) →
       generate_workingsets (VSeq (VMap <$> (l1 ++ m :: l2)))
       = Ok (mkGenerator ws (Some TypeError))) ∧
  (∀ b, m !! "sets" = Some (VBool b) →
     generate_workingsets (VSeq [VMap m])
     = Ok (mkGenerator (if b then [workingset] else []) None)).
Proof.
  intros Hp Hr workingset. split.
  - intros v Hv Hbad l1 l2 ws H1.
    destruct (generate_workingsets_maps l2) as [g2 H2].
    assert (Hone : generate_workingsets (VSeq [VMap m]) = Ok (gen_raise TypeError)).
    { rewrite generate_workingsets_one. unfold getitem, get.
      rewrite Hp, Hr, Hv. by destruct v. }
    rewrite fmap_app, fmap_cons.
    rewrite (generate_workingsets_around m _ _ _ Hone), H1, H2.
    unfold gen_then. simpl. by rewrite app_nil_r.
  - intros b Hb. rewrite generate_workingsets_one. unfold getitem, get.
    rewrite Hp, Hr, Hb. by destruct b.
Qed.

Lemma repeat_count_goes_to_range_witness :
  generate_workingsets
    (VSeq (VMap <$> ([entry_3x] ++ entry_float_count :: [entry_1x])))
  = Ok (mkGenerator
          (repeat (mkWorkingSet (VFloat 0.7) (VInt 5) (VBool false)) 3)
          (Some TypeError)).
Proof.
  apply (proj1 (repeat_count_goes_to_range entry_float_count (VFloat 0.7) (VInt 5)
                  eq_refl eq_refl)
           (VFloat 3) eq_refl I [entry_3x] [entry_1x]).
  by vm_compute.
Defined.

(** ** What a description loads to *)

Section matching.
Context {B : Type} (f : value → result (generator B)).
Hypothesis f_splits : splits f.
Hypothesis f_nil : f (VSeq []) = Ok gen_return.

Lemma seq_yields_matching (P : gmap string value → Prop)
    (M : gmap string value → B → Prop) l :
  (∀ m, P m → ∃ y, f (VSeq [VMap m]) = Ok (gen_yield y) ∧ M m y) →
  Forall P l →
  ∃ ys, f (VSeq (VMap <$> l)) = Ok (mkGenerator ys None) ∧ Forall2 M l ys.
Proof.
  intros HP. induction 1 as [|m l Hm _ (ys & IH & HM)].
  - exists []. split; [exact f_nil | constructor].
  - destruct (HP m Hm) as (y & Hy & Hmy). exists (y :: ys).
    rewrite fmap_cons, (splits_cons f f_splits), Hy, IH.
    split; [done | by constructor].
Qed.
End matching.

Lemma generate_workingsets_expands l :
  Forall wf_set l →
  ∃ parts, generate_workingsets (VSeq (VMap <$> l))
           = Ok (mkGenerator (concat parts) None) ∧
           Forall2 expands l parts.
Proof.
  induction 1 as [|m l Hm _ (parts & IH & Hparts)].
  - exists []. split; [done | constructor].
  - destruct (wf_set_range m Hm) as (p & r & Hp & Hr & Hrange & _).
    exists (repeat (mkWorkingSet p r (get m "amrap" (VBool false)))
              (Z.to_nat (repeat_count m)) :: parts).
    rewrite fmap_cons, (splits_cons _ generate_workingsets_splits).
    rewrite (generate_workingsets_entry m p r _ Hp Hr Hrange), IH, length_seq.
    split; [done |]. constructor; [| done]. by exists p, r.
Qed.

Lemma generate_sessions_matches m :
  wf_session m →
  ∃ y, generate_sessions (VSeq [VMap m]) = Ok (gen_yield y) ∧ session_matches m y.
Proof.
  intros ([name Hname] & v & Hv & l & -> & Hl).
  destruct (generate_workingsets_expands l Hl) as (parts & Hg & Hparts).
  exists (mkSession name (concat parts)). split.
  - rewrite generate_sessions_one. unfold getitem. rewrite Hv, Hname.
    unfold mbind, result_bind. by rewrite Hg.
  - split; [done |]. exists parts. by rewrite (children_seq _ _ _ Hv).
Qed.

Lemma generate_micros_matches m :
  wf_micro m →
  ∃ y, generate_micros (VSeq [VMap m]) = Ok (gen_yield y) ∧ micro_matches m y.
Proof.
  intros ([name Hname] & v & Hv & l & -> & Hl).
  destruct (seq_yields_matching generate_sessions generate_sessions_splits eq_refl
              wf_session session_matches l generate_sessions_matches Hl)
    as (ys & Hg & HM).
  exists (mkMicroCycle name ys). split.
  - rewrite generate_micros_one. unfold getitem. rewrite Hv, Hname.
    unfold mbind, result_bind. by rewrite Hg.
  - split; [done |]. by rewrite (children_seq _ _ _ Hv).
Qed.

Lemma generate_mesos_matches m :
  wf_meso m →
  ∃ y, generate_mesos (VSeq [VMap m]) = Ok (gen_yield y) ∧ meso_matches m y.
Proof.
  intros ([name Hname] & v & Hv & l & -> & Hl).
  destruct (seq_yields_matching generate_micros generate_micros_splits eq_refl
              wf_micro micro_matches l generate_micros_matches Hl)
    as (ys & Hg & HM).
  exists (mkMesoCycle name ys (get m "tm_inc" (VInt 0))). split.
  - rewrite generate_mesos_one. unfold getitem. rewrite Hv, Hname.
    unfold mbind, result_bind. by rewrite Hg, options_tm_inc.
  - split; [done |]. split; [done |]. by rewrite (children_seq _ _ _ Hv).
Qed.

(** X10.  A well-formed description loads to the program it describes:
    the same names, level by level and in the same order; for each
    mesocycle its [tm_inc], or 0 when it has none, and nothing of its other
    keys; and for each session the working sets of its raw entries, each
    entry standing for as many equal working sets as its repeat count. *)
Theorem load_program_matches document :
  wf_program document →
  ∃ p, load_program document = Ok p ∧ program_matches document p.
Proof.
  intros (program & -> & ([name Hname] & v & Hv & l & -> & Hl) & Hc).
  destruct (seq_yields_matching generate_mesos generate_mesos_splits eq_refl
              wf_meso meso_matches l generate_mesos_matches Hl)
    as (ys & Hg & HM).
  exists (mkProgram name ys). split.
  - unfold load_program. rewrite (check_program_Ok _ Hc).
    unfold mbind, result_bind, getitem. rewrite Hv, Hg. simpl. by rewrite Hname.
  - exists program. split; [done |]. split; [done |].
    by rewrite (children_seq _ _ _ Hv).
Qed.

Lemma load_program_matches_witness :
  wf_program demo ∧
  ∃ p, load_program demo = Ok p ∧ program_matches demo p.
Proof.
  split; [exact demo_wf | exact (load_program_matches demo demo_wf)].
Defined.

(** ** The contract of the document *)

Lemma check_program_fails m :
  ¬ map_Forall (λ _ v, is_str_or_program_data v = true) m →
  check_program (VMap m) = Raise ContractNotRespected.
Proof.
  intros H. unfold check_program.
  destruct (forallb _ _) eqn:E; [| done].
  destruct H. intros k v Hkv. rewrite forallb_forall in E.
  apply (E (k, v)). by apply list_elem_of_In, elem_of_map_to_list.
Qed.

(** X11.  Loading checks the whole document before it looks anything up:
    a document that is not a map, or a map holding under any key,
    documented or not, a value that is neither a string nor a sequence of
    maps, raises [ContractNotRespected]. *)
Theorem load_program_contract :
  (∀ document, (∀ m, document ≠ VMap m) →
     load_program document = Raise ContractNotRespected) ∧
  (∀ program k v,
     program !! k = Some v → is_str_or_program_data v = false →
     load_program (VMap program) = Raise ContractNotRespected).
Proof.
  split.
  - intros document H. destruct document; try done. by destruct (H m).
  - intros program k v Hk Hv. unfold load_program.
    rewrite check_program_fails; [done |].
    intros Hall. specialize (Hall k v Hk). simpl in Hall. congruence.
Qed.

Lemma load_program_contract_witness :
  load_program VNone = Raise ContractNotRespected ∧
  load_program (VMap (<["version" := VInt 2]> demo_map))
  = Raise ContractNotRespected.
Proof.
  split.
  - by apply (proj1 load_program_contract VNone).
  - apply (proj2 load_program_contract _ "version"%string (VInt 2));
      [by apply lookup_insert_eq | reflexivity].
Defined.

(** X12.  A key added at the top of the document, other than [name] and
    [mesos], changes nothing when its value is a string or a sequence of
    maps: the document loads to the same program, or fails with the same
    exception. *)
Theorem load_program_ignores_top_level_key program k v :
  program !! k = None → k ≠ "name"%string → k ≠ "mesos"%string →
  is_str_or_program_data v = true →
  load_program (VMap (<[k := v]> program)) = load_program (VMap program).
Proof.
  intros Hk Hname Hmesos Hv. unfold load_program.
  destruct (decide (map_Forall (λ _ v, is_str_or_program_data v = true) program))
    as [Hall | Hall].
  - rewrite (check_program_Ok _ Hall), check_program_Ok
      by (by apply map_Forall_insert_2).
    unfold mbind, result_bind, getitem. by rewrite !lookup_insert_ne.
  - rewrite (check_program_fails _ Hall), check_program_fails; [done |].
    intros Hall'. apply Hall. by apply map_Forall_insert in Hall' as [_ ?].
Qed.

Lemma load_program_ignores_top_level_key_witness :
  load_program (VMap (<["author" := VStr "me"]> demo_map))
  = load_program (VMap demo_map).
Proof.
  apply (load_program_ignores_top_level_key demo_map "author" (VStr "me"));
    [reflexivity | done | done | reflexivity].
Defined.

Lemma demo_map_contract :
  map_Forall (λ _ v, is_str_or_program_data v = true) demo_map.
Proof.
  repeat (apply map_Forall_insert_2; [reflexivity |]). apply map_Forall_empty.
Qed.

(** ** Presentation *)

Lemma gen_for_ext_eq {A B} (l : list A) (body body' : A → generator B) :
  (∀ x, body x = body' x) → gen_for l body = gen_for l body'.
Proof.
  intros H. induction l as [|x l IH]; [done |].
  by rewrite !gen_for_cons, H, IH.
Qed.




Lemma effective_tm_falsy meso tm :
  truthy_num tm = false → effective_tm meso tm = Ok None.
Proof. intros H. unfold effective_tm. by rewrite H. Qed.

Lemma present_session_without_tm rounding rounding' tm tm' m u s :
  truthy_num tm = false → truthy_num tm' = false →
  present_session rounding tm m u s = present_session rounding' tm' m u s.
Proof.
  intros H H'. unfold present_session.
  rewrite !(effective_tm_falsy m tm H), !(effective_tm_falsy m tm' H'), H, H'.
  reflexivity.
Qed.

(** X13.  Without a training max, or with one that is zero, what
    [present] prints does not depend on the rounding unit, and it is the
    same for an absent and for a zero training max. *)
Theorem present_without_tm self rounding rounding' tm tm' :
  truthy_num tm = false → truthy_num tm' = false →
  present self rounding tm = present self rounding' tm'.
Proof.
  intros H H'. unfold present.
  destruct (py_len (program_name self)) as [n|e]; [| done].
  simpl. f_equal.
  apply gen_for_ext_eq; intros m. apply gen_for_ext_eq; intros u.
  apply gen_for_ext_eq; intros s. by apply present_session_without_tm.
Qed.

Lemma present_without_tm_witness :
  present demo_loaded (Some (NFloat 5)) None
  = present demo_loaded (Some (NInt 10)) (Some (NInt 0)).
Proof.
  apply (present_without_tm demo_loaded _ _ None (Some (NInt 0))); reflexivity.
Defined.















(** X16.  A training max that the mesocycle's increment cancels is no
    training max: when [tm + tm_inc] is zero, the line [present] prints
    for a working set is the one it prints without a training max, with
    [percent] in place of a weight. *)
Theorem cancelled_training_max meso ws t inc rounding :
  ¬ (float t == 0)%Q → py_float (tm_inc meso) = Ok inc →
  (float t + inc == 0)%Q →
  (etm ← effective_tm meso (Some t); stringify ws (NFloat <$> etm) rounding)
  = stringify ws None rounding.
Proof.
  intros Ht Hinc Hz. unfold effective_tm.
  apply truthy_num_Some in Ht. rewrite Ht, Hinc.
  unfold mbind at 1, result_bind at 1. unfold mbind at 1, result_bind at 1.
  simpl fmap. unfold stringify.
  by rewrite (calculate_weight_falsy ws (NFloat (float t + inc)) rounding Hz).
Qed.

Lemma cancelled_training_max_witness :
  (etm ← effective_tm (mkMesoCycle (VStr "m1") [] (VInt (-100))) (Some (NInt 100));
   stringify ws_half (NFloat <$> etm) (Some (NInt 5)))
  = stringify ws_half None (Some (NInt 5)).
Proof.
  apply (cancelled_training_max _ ws_half (NInt 100) (inject_Z (-100)));
    [by vm_compute | reflexivity | reflexivity].
Defined.

(** ** The first missing field *)

Section first_defect.
Context {A : Type} (F : value → result (generator A)).
Context (child : string) (P : gmap string value → Prop).
Context (D : string → gmap string value → Prop).
Hypothesis F_splits : splits F.
Hypothesis F_maps : ∀ l : list (gmap string value), ∃ g, F (VSeq (VMap <$> l)) = Ok g.
Hypothesis F_complete :
  ∀ l, Forall P l → ∃ ys, F (VSeq (VMap <$> l)) = Ok (mkGenerator ys None).
Hypothesis F_defect :
  ∀ key x, D key x → F (VSeq [VMap x]) = Ok (gen_raise (KeyError key)).

Lemma children_fail key l1 x l2 :
  Forall P l1 → D key x →
  ∃ ys, F (VSeq (VMap <$> (l1 ++ x :: l2)))
        = Ok (mkGenerator ys (Some (KeyError key))).
Proof.
  intros Hl1 Hx. destruct (F_complete l1 Hl1) as [ys H1].
  destruct (F_maps l2) as [g2 H2]. exists ys.
  rewrite fmap_app, fmap_cons, F_splits, (splits_cons F F_splits).
  rewrite H1, (F_defect key x Hx), H2.
  unfold gen_then. simpl. by rewrite app_nil_r.
Qed.

Lemma level_fails_collect key m :
  level_fails child P D key m →
  (c ← getitem m child; g ← F c; collect g) = Raise (KeyError key) ∨
  (∃ cs, (c ← getitem m child; g ← F c; collect g) = Ok cs) ∧
  getitem m "name" = Raise (KeyError key).
Proof.
  unfold getitem.
  intros [[-> ->] | [(l1 & x & l2 & -> & Hl1 & Hx) | (v & -> & (l & -> & Hl) & -> & ->)]].
  - by left.
  - left. destruct (children_fail key l1 x l2 Hl1 Hx) as [ys Hg].
    unfold mbind, result_bind. by rewrite Hg.
  - right. destruct (F_complete l Hl) as [ys Hg].
    unfold mbind, result_bind. rewrite Hg. split; [by eexists | done].
Qed.

Lemma level_fails_raises {B} (mk : value → list A → B) key m :
  level_fails child P D key m →
  gen_try (c ← getitem m child; g ← F c; collect g) (λ cs,
  gen_try (getitem m "name") (λ name, gen_yield (mk name cs)))
  = gen_raise (KeyError key).
Proof.
  intros H. destruct (level_fails_collect key m H) as [-> | [[cs ->] Hname]];
    [done |].
  simpl. by rewrite Hname.
Qed.
End first_defect.

Ltac maps_ok f :=
  intros l; unfold f; rewrite check_program_data_seq; by eexists.

Lemma generate_sessions_maps (l : list (gmap string value)) :
  ∃ g, generate_sessions (VSeq (VMap <$> l)) = Ok g.
Proof. revert l. maps_ok generate_sessions. Qed.

Lemma generate_micros_maps (l : list (gmap string value)) :
  ∃ g, generate_micros (VSeq (VMap <$> l)) = Ok g.
Proof. revert l. maps_ok generate_micros. Qed.

Lemma generate_mesos_maps (l : list (gmap string value)) :
  ∃ g, generate_mesos (VSeq (VMap <$> l)) = Ok g.
Proof. revert l. maps_ok generate_mesos. Qed.

Lemma generate_workingsets_complete l :
  Forall wf_set l →
  ∃ ys, generate_workingsets (VSeq (VMap <$> l)) = Ok (mkGenerator ys None).
Proof.
  intros H. destruct (generate_workingsets_count l H) as (ys & Hg & _).
  by exists ys.
Qed.

Lemma generate_sessions_complete l :
  Forall wf_session l →
  ∃ ys, generate_sessions (VSeq (VMap <$> l)) = Ok (mkGenerator ys None).
Proof.
  intros H.
  destruct (seq_yields_matching generate_sessions generate_sessions_splits eq_refl
              wf_session session_matches l generate_sessions_matches H)
    as (ys & Hg & _).
  by exists ys.
Qed.

Lemma generate_micros_complete l :
  Forall wf_micro l →
  ∃ ys, generate_micros (VSeq (VMap <$> l)) = Ok (mkGenerator ys None).
Proof.
  intros H.
  destruct (seq_yields_matching generate_micros generate_micros_splits eq_refl
              wf_micro micro_matches l generate_micros_matches H)
    as (ys & Hg & _).
  by exists ys.
Qed.

Lemma generate_mesos_complete l :
  Forall wf_meso l →
  ∃ ys, generate_mesos (VSeq (VMap <$> l)) = Ok (mkGenerator ys None).
Proof.
  intros H.
  destruct (seq_yields_matching generate_mesos generate_mesos_splits eq_refl
              wf_meso meso_matches l generate_mesos_matches H)
    as (ys & Hg & _).
  by exists ys.
Qed.

Lemma generate_workingsets_fails key ws :
  set_fails key ws →
  generate_workingsets (VSeq [VMap ws]) = Ok (gen_raise (KeyError key)).
Proof.
  intros H. rewrite generate_workingsets_one. unfold getitem.
  destruct H as [[-> ->] | ([p ->] & -> & ->)]; reflexivity.
Qed.

Lemma generate_sessions_fails key m :
  session_fails key m →
  generate_sessions (VSeq [VMap m]) = Ok (gen_raise (KeyError key)).
Proof.
  intros H. rewrite generate_sessions_one. f_equal.
  by apply (level_fails_raises generate_workingsets "sets" wf_set set_fails
              generate_workingsets_splits generate_workingsets_maps
              generate_workingsets_complete generate_workingsets_fails).
Qed.

Lemma generate_micros_fails key m :
  micro_fails key m →
  generate_micros (VSeq [VMap m]) = Ok (gen_raise (KeyError key)).
Proof.
  intros H. rewrite generate_micros_one. f_equal.
  by apply (level_fails_raises generate_sessions "sessions" wf_session
              session_fails generate_sessions_splits generate_sessions_maps
              generate_sessions_complete generate_sessions_fails).
Qed.

Lemma generate_mesos_fails key m :
  meso_fails key m →
  generate_mesos (VSeq [VMap m]) = Ok (gen_raise (KeyError key)).
Proof.
  intros H. rewrite generate_mesos_one. f_equal.
  by apply (level_fails_raises generate_micros "micros" wf_micro
              micro_fails generate_micros_splits generate_micros_maps
              generate_micros_complete generate_micros_fails
              (λ name micros, mkMesoCycle name micros _)).
Qed.

(** X17.  In a document that passes the contract, the exception of a
    missing field is the [KeyError] of the first one the loader comes to:
    at each level the children are generated first, in order, and the name
    is looked up last, and in a set entry [percent] is looked up before
    [reps].  Whatever follows that field in this order, well formed or
    not, has no part in the result. *)
Theorem load_program_first_missing_field program key :
  map_Forall (λ _ v, is_str_or_program_data v = true) program →
  program_fails key program →
  load_program (VMap program) = Raise (KeyError key).
Proof.
  intros Hc H. unfold load_program. rewrite (check_program_Ok _ Hc).
  unfold mbind at 1, result_bind at 1.
  destruct (level_fails_collect generate_mesos "mesos" wf_meso meso_fails
              generate_mesos_splits generate_mesos_maps
              generate_mesos_complete generate_mesos_fails key program H)
    as [-> | [[cs ->] Hname]]; [done |].
  unfold mbind, result_bind. by rewrite Hname.
Qed.

Lemma level_fails_child child P D key m v l1 x l2 :
  m !! child = Some v → v = VSeq (VMap <$> (l1 ++ x :: l2)) →
  Forall P l1 → D key x → level_fails child P D key m.
Proof. intros Hv -> Hl1 Hx. right; left. by exists l1, x, l2. Qed.

Ltac first_child l1 l2 :=
  eapply (level_fails_child _ _ _ _ _ _ l1 _ l2); [lookup | reflexivity | |].

Lemma load_program_first_missing_field_witness :
  load_program demo_lacking_day1 = Raise (KeyError "reps").
Proof.
  unfold demo_lacking_day1, demo_with, dict.
  apply load_program_first_missing_field.
  - repeat (apply map_Forall_insert_2; [reflexivity |]). apply map_Forall_empty.
  - pose (nothing := @nil (gmap string value)).
    pose (day2 := list_to_map
            [("name", VStr "day 2"); ("sets", VSeq (VMap <$> [entry_1x]))]%string
          : gmap string value).
    first_child nothing nothing; [constructor |].
    first_child nothing nothing; [constructor |].
    first_child nothing [day2]; [constructor |].
    first_child [entry_3x] nothing.
    + constructor; [| constructor].
      eapply wf_set_intro; [reflexivity | reflexivity |].
      right. eexists. split; [reflexivity | lia].
    + right. split; [by eexists |]. split; reflexivity.
Defined.
